(** * Review-issue converter: a shallow embedding of
      [scripts/convert_review_issues.py] and the properties of its
      sanitizer, classifier, extractor, sequencer and serializer. *)

From Stdlib Require Import ZArith NArith Ascii List Lia Bool.
From Stdlib Require String DecimalString DecimalZ.
From stdpp Require Import base option list gmap strings.

Local Open Scope Z_scope.

(** Python [str] values are lists of characters.  A character is a code
    point below 256; on that range the character classes below are the
    ones of Python ([str.isspace], [\s], [\d], [.], [$]). *)
Abbreviation str := (list ascii).
Coercion String.list_ascii_of_string : string >-> list.

(** ** Python string primitives *)
Module PyStr.

Definition LF : ascii := "010"%char.
Definition DQUOTE : ascii := "034"%char.
Definition BACKSLASH : ascii := "092"%char.
Definition UNDERSCORE : ascii := "_"%char.

Definition code (c : ascii) : N := N_of_ascii c.

Definition in_range (lo hi : N) (c : ascii) : bool :=
  ((lo <=? code c) && (code c <=? hi))%N.

(** [str.isspace] and the class [\s] on code points below 256. *)
Definition is_space (c : ascii) : bool :=
  in_range 9 13 c || in_range 28 32 c
  || (code c =? 133)%N || (code c =? 160)%N.

Definition is_digit (c : ascii) : bool := in_range 48 57 c.
Definition is_upper (c : ascii) : bool := in_range 65 90 c.
Definition is_lower (c : ascii) : bool := in_range 97 122 c.

(** The class [[A-Za-z0-9]]. *)
Definition is_alnum (c : ascii) : bool :=
  is_upper c || is_lower c || is_digit c.

Definition is_newline (c : ascii) : bool := bool_decide (c = LF).
Definition is_underscore (c : ascii) : bool := bool_decide (c = UNDERSCORE).

(** [str.upper] on one character.  Exact for ASCII; [sanitize_title]
    applies it to strings over [[A-Za-z0-9_]] only. *)
Definition upper_char (c : ascii) : ascii :=
  if is_lower c then ascii_of_N (code c - 32) else c.

Definition upper (s : str) : str := map upper_char s.

Fixpoint take_while (p : ascii -> bool) (s : str) : str :=
  match s with
  | c :: s' => if p c then c :: take_while p s' else []
  | [] => []
  end.

Fixpoint drop_while (p : ascii -> bool) (s : str) : str :=
  match s with
  | c :: s' => if p c then drop_while p s' else s
  | [] => []
  end.

Definition lstrip_by (p : ascii -> bool) (s : str) : str := drop_while p s.
Definition rstrip_by (p : ascii -> bool) (s : str) : str :=
  rev (drop_while p (rev s)).
Definition strip_by (p : ascii -> bool) (s : str) : str :=
  rstrip_by p (lstrip_by p s).

(** [s.strip()], [s.rstrip()] and [s.strip("_")]. *)
Definition strip : str -> str := strip_by is_space.
Definition rstrip : str -> str := rstrip_by is_space.
Definition strip_underscores : str -> str := strip_by is_underscore.

(** [sep.join(parts)]. *)
Fixpoint join (sep : str) (parts : list str) : str :=
  match parts with
  | [] => []
  | [p] => p
  | p :: ps => p ++ sep ++ join sep ps
  end.

(** [s[a:b]] for non-negative indices. *)
Definition slice (s : str) (a b : nat) : str := take (b - a) (drop a s).

(** [s.endswith(suffix)] and [s[:-len(suffix)]]. *)
Definition endswith (s suffix : str) : bool :=
  bool_decide (drop (length s - length suffix) s = suffix).
Definition drop_last (n : nat) (s : str) : str := take (length s - n) s.

(** [s.rfind(".")]: index of the last dot. *)
Fixpoint rfind_dot (s : str) : option nat :=
  match s with
  | [] => None
  | c :: s' =>
      match rfind_dot s' with
      | Some i => Some (S i)
      | None => if bool_decide (c = "."%char) then Some 0%nat else None
      end
  end.

(** [value.replace] of every double quote by a backslash and a double
    quote. *)
Fixpoint escape_quotes (s : str) : str :=
  match s with
  | [] => []
  | c :: s' =>
      if bool_decide (c = DQUOTE)
      then BACKSLASH :: DQUOTE :: escape_quotes s'
      else c :: escape_quotes s'
  end.

(** [str(n)] for an [int]. *)
Definition str_of_int (z : Z) : str :=
  String.list_ascii_of_string (DecimalString.NilZero.string_of_int (Z.to_int z)).

(** [int(s)] on a run of ASCII digits, the only argument it receives. *)
Definition digit_value (c : ascii) : Z := Z.of_N (code c - 48).
Definition int_of_digits (s : str) : Z :=
  fold_left (fun acc c => 10 * acc + digit_value c) s 0.

(** The format [f"{n:03d}"]: sign-aware zero padding to width 3. *)
Definition zfill (width : nat) (digits : str) : str :=
  repeat "0"%char (width - length digits) ++ digits.
Definition format_03d (z : Z) : str :=
  if z <? 0 then "-"%char :: zfill 2 (str_of_int (- z))
  else zfill 3 (str_of_int z).

(** [re.sub("[class]+", repl, s)]: every maximal run of characters of
    the class is replaced by [repl]; [in_run] tells that the previous
    character belonged to the run being replaced. *)
Fixpoint sub_runs (p : ascii -> bool) (repl : str) (in_run : bool) (s : str) : str :=
  match s with
  | [] => []
  | c :: s' =>
      if p c then
        if in_run then sub_runs p repl true s'
        else repl ++ sub_runs p repl true s'
      else c :: sub_runs p repl false s'
  end.

(** [s] starts with [p]: the rest after it. *)
Fixpoint strip_prefix (p s : str) : option str :=
  match p, s with
  | [], _ => Some s
  | a :: p', b :: s' => if bool_decide (a = b) then strip_prefix p' s' else None
  | _ :: _, [] => None
  end.

End PyStr.
Import PyStr.

(** ** The compiled patterns *)

(** [ISSUE_HEADING_PATTERN], compiled with [re.MULTILINE]; its parts,
    written apart: [^] [###] [\s+] [(\d+)] [\.] [\s+] and a last group
    taking every character up to the end of the line. *)
Module ISSUE_HEADING_PATTERN.

Record Match := {
  m_start : nat;      (* match.start() *)
  m_end : nat;        (* match.end() *)
  group1 : str;       (* match.group(1) *)
  group2 : str        (* match.group(2) *)
}.

(** One attempt at a position where [^] holds; [s] is the text from
    there on.  The result is the length of the match and both groups.
    Each greedy run is maximal: giving back a character of [\s+] would
    put white space in front of [\d], giving back one of [\d+] would put
    a digit in front of the dot, and the last group cannot fail, so the
    first path the engine tries is the only one that can succeed. *)
Definition match_here (s : str) : option (nat * str * str) :=
match strip_prefix "###" s with
| Some r1 =>
    let ws1 := take_while is_space r1 in
    let r2 := drop_while is_space r1 in
    let ds := take_while is_digit r2 in
    let r3 := drop_while is_digit r2 in
    match strip_prefix "." r3 with
    | Some r4 =>
        let ws2 := take_while is_space r4 in
        let r5 := drop_while is_space r4 in
        let rest_of_line := take_while (fun c => negb (is_newline c)) r5 in
        if ((0 <? length ws1) && (0 <? length ds) && (0 <? length ws2))%nat
        then Some ((3 + length ws1 + length ds + 1 + length ws2
                    + length rest_of_line)%nat, ds, rest_of_line)
        else None
    | None => None
    end
| None => None
end.

(** [finditer] from position [pos]: [bol] tells that [^] holds at
    [pos] (start of text or just after a newline) and [skip] counts the
    characters of the previous match still to be passed over. *)
Fixpoint finditer_from (pos : nat) (bol : bool) (skip : nat) (s : str) : list Match :=
  match s with
  | [] => []
  | c :: s' =>
      let bol' := is_newline c in
      match skip with
      | S k => finditer_from (S pos) bol' k s'
      | O =>
          match (if bol then match_here s else None) with
          | Some (len, g1, g2) =>
              {| m_start := pos; m_end := (pos + len)%nat;
                 group1 := g1; group2 := g2 |}
                :: finditer_from (S pos) bol' (len - 1) s'
          | None => finditer_from (S pos) bol' 0 s'
          end
      end
  end.

Definition finditer (text : str) : list Match := finditer_from 0 true 0 text.

End ISSUE_HEADING_PATTERN.

(** [TRAILING_RULE_PATTERN = re.compile(r"\n*---\s*$", re.MULTILINE)] *)
Module TRAILING_RULE_PATTERN.

(** [$] under [re.MULTILINE]: at the end of the text or in front of a
    newline. *)
Definition at_eol (rest : str) : bool :=
  match rest with
  | [] => true
  | c :: _ => is_newline c
  end.

(** [\s*$] by backtracking: consume [k] white-space characters, then
    [k-1], ... until [$] holds; the number consumed. *)
Fixpoint ws_then_eol (k : nat) (s : str) : option nat :=
  if at_eol (drop k s) then Some k
  else match k with
       | O => None
       | S k' => ws_then_eol k' s
       end.

(** [---\s*$] in front of [s]: the length matched. *)
Definition rule_here (s : str) : option nat :=
match strip_prefix "---" s with
| Some r =>
    (fun m => (3 + m)%nat) <$> ws_then_eol (length (take_while is_space r)) r
| None => None
end.

(** [\n*] followed by the rest of the pattern, by backtracking from
    [j] newlines down to none. *)
Fixpoint newlines_then_rule (j : nat) (s : str) : option nat :=
  match rule_here (drop j s) with
  | Some n => Some (j + n)%nat
  | None =>
      match j with
      | O => None
      | S j' => newlines_then_rule j' s
      end
  end.

(** One attempt at the front of [s]: the length of the match. *)
Definition match_here (s : str) : option nat :=
  newlines_then_rule (length (take_while is_newline s)) s.

(** [sub] with the empty replacement: every match, from left to right,
    is deleted;
    [skip] counts the characters of the current match still to delete. *)
Fixpoint sub_from (skip : nat) (s : str) : str :=
  match s with
  | [] => []
  | c :: s' =>
      match skip with
      | S k => sub_from k s'
      | O =>
          match match_here s with
          | Some (S k) => sub_from k s'
          | _ => c :: sub_from 0 s'
          end
      end
  end.

Definition sub_empty (s : str) : str := sub_from 0 s.

End TRAILING_RULE_PATTERN.

(** [PRIORITY_PATTERN = re.compile(r"\*\*(?:Priority|Severity):\*\*\s*([^\n]+)")] *)
Module PRIORITY_PATTERN.

Definition not_newline (c : ascii) : bool := negb (is_newline c).

(** [\*\*(?:Priority|Severity):\*\*] in front of [s]: the rest. *)
Definition label_here (s : str) : option str :=
  match strip_prefix "**Priority:**"%string s with
  | Some r => Some r
  | None => strip_prefix "**Severity:**"%string s
  end.

(** [\s*([^\n]+)] by backtracking: skip [k] white-space characters,
    then [k-1], ... until a character other than a newline follows;
    group 1 runs from there to the end of that line. *)
Fixpoint ws_then_text (k : nat) (r : str) : option str :=
  match take_while not_newline (drop k r) with
  | c :: cap => Some (c :: cap)
  | [] =>
      match k with
      | O => None
      | S k' => ws_then_text k' r
      end
  end.

(** One attempt at the front of [s]: group 1 of the match. *)
Definition match_here (s : str) : option str :=
  match label_here s with
  | Some r => ws_then_text (length (take_while is_space r)) r
  | None => None
  end.

(** [search(s)]: the leftmost match; its group 1. *)
Fixpoint search (s : str) : option str :=
  match match_here s with
  | Some g => Some g
  | None =>
      match s with
      | [] => None
      | _ :: s' => search s'
      end
  end.

End PRIORITY_PATTERN.

(** ** Paths, files, the log and exceptions *)

(** A path is the list of its components below [ROOT]. *)
Abbreviation Path := (list str).

Definition SOURCE_DIR : Path := ["tasks" : str; "reviews" : str].
Definition DEST_ROOT : Path := ["ai-docs" : str; "reviews" : str].

(** [p / name], [p.name], [p.stem] and [str(p.relative_to(ROOT))]. *)
Definition path_div (p : Path) (name : str) : Path := p ++ [name].
Definition path_name (p : Path) : str := List.last p [].
Definition path_stem (p : Path) : str :=
  let name := path_name p in
  match rfind_dot name with
  | Some i =>
      if ((0 <? i) && (i <? length name - 1))%nat then take i name else name
  | None => name
  end.
Definition relative_to_ROOT (p : Path) : str := join "/" p.

Inductive Level := WARNING | INFO.

(** A log record keeps its format and its argument apart, as [logging]
    does. *)
Record LogRecord := { level : Level; msg : str; arg : Path }.

(** The message of [FileNotFoundError] is an f-string that ends with a
    path: it is kept as the text in front and the path, and stands for
    that text followed by the absolute form of the path, [ROOT] and the
    components below it. *)
Inductive Exception :=
| ValueError (message : str)
| KeyError (key : str)
| FileNotFoundError (message : str) (path : Path).

(** What the program can see and change: the files below [ROOT] that
    [Path.exists] and [Path.write_text] reach, and the log. *)
Record World := { files : gmap Path str; log : list LogRecord }.

(** A computation ends with a value, with an exception, or is cut short
    by the bound put on the one [while] loop; the world it leaves is kept
    in the three cases. *)
Inductive outcome (A : Type) :=
| Return (a : A)
| Raise (e : Exception)
| Timeout.
Arguments Return {A} a.
Arguments Raise {A} e.
Arguments Timeout {A}.

Definition M (A : Type) : Type := World -> outcome A * World.

Definition ret {A} (a : A) : M A := fun w => (Return a, w).
Definition raise {A} (e : Exception) : M A := fun w => (Raise e, w).
Definition timeout {A} : M A := fun w => (Timeout, w).
Definition bind {A B} (m : M A) (k : A -> M B) : M B :=
  fun w =>
    match m w with
    | (Return a, w') => k a w'
    | (Raise e, w') => (Raise e, w')
    | (Timeout, w') => (Timeout, w')
    end.

Notation "x <- c1 ;; c2" := (bind c1 (fun x => c2))
  (at level 20, c1 at level 99, c2 at level 200, only parsing).
Notation "' pat <- c1 ;; c2" := (bind c1 (fun x => match x with pat => c2 end))
  (at level 20, pat pattern, c1 at level 99, c2 at level 200, only parsing).

Definition logging (lvl : Level) (fmt : str) (p : Path) : M unit :=
  fun w => (Return tt, {| files := files w; log := log w ++ [{| level := lvl; msg := fmt; arg := p |}] |}).
Definition path_exists (p : Path) : M bool :=
  fun w => (Return (bool_decide (is_Some (files w !! p))), w).
Definition write_text (p : Path) (content : str) : M unit :=
  fun w => (Return tt, {| files := <[p := content]> (files w); log := log w |}).
Definition count_files : M nat :=
  fun w => (Return (size (files w)), w).

(** ** The program *)

Record Issue := {
  title : str;
  source_issue_index : Z;
  group : str;
  category : str;
  sequence : Z;
  source_path : Path;
  body : str;
  priority : option str;
  status : str;
  extra_frontmatter : list (str * str)
}.

Definition set_sequence (issue : Issue) (n : Z) : Issue :=
  {| title := title issue; source_issue_index := source_issue_index issue;
     group := group issue; category := category issue; sequence := n;
     source_path := source_path issue; body := body issue;
     priority := priority issue; status := status issue;
     extra_frontmatter := extra_frontmatter issue |}.

(** A [dict] keeps its keys in insertion order: [d[k] = v] replaces the
    value in place when [k] is present and appends otherwise. *)
Fixpoint dict_set (k v : str) (d : list (str * str)) : list (str * str) :=
  match d with
  | [] => [(k, v)]
  | (k', v') :: d' =>
      if bool_decide (k = k') then (k, v) :: d' else (k', v') :: dict_set k v d'
  end.

Definition dict_update (d extra : list (str * str)) : list (str * str) :=
  fold_left (fun acc kv => dict_set kv.1 kv.2 acc) extra d.

Definition frontmatter_fields (issue : Issue) : list (str * str) :=
  dict_update
    [("title" : str, title issue);
     ("group" : str, group issue);
     ("category" : str, category issue);
     ("priority" : str, default [] (priority issue));
     ("status" : str, status issue);
     ("source" : str, relative_to_ROOT (source_path issue));
     ("issue_index" : str, str_of_int (source_issue_index issue));
     ("sequence" : str, str_of_int (sequence issue))]
    (extra_frontmatter issue).

Definition frontmatter_line (kv : str * str) : str :=
  kv.1 ++ ": " ++ [DQUOTE] ++ escape_quotes kv.2 ++ [DQUOTE].

Definition frontmatter_lines (issue : Issue) : list str :=
  ["---" : str] ++ map frontmatter_line (frontmatter_fields issue) ++ ["---" : str].

Definition document (issue : Issue) : str :=
  let frontmatter := join [LF] (frontmatter_lines issue) in
  let body := rstrip (body issue) ++ [LF] in
  frontmatter ++ [LF; LF] ++ body.

Definition sanitize_title (value : str) : str :=
  let sanitized := sub_runs (fun c => negb (is_alnum c)) "_" false (strip value) in
  let sanitized := sub_runs is_underscore "_" false sanitized in
  let sanitized := strip_underscores sanitized in
  match upper sanitized with
  | [] => "UNTITLED"
  | u => u
  end.

(** The normalized title: the value of [sanitized.upper()] on the last
    line of [sanitize_title], in front of [or "UNTITLED"]. *)
Definition normalize_title (value : str) : str :=
  let sanitized := sub_runs (fun c => negb (is_alnum c)) "_" false (strip value) in
  let sanitized := sub_runs is_underscore "_" false sanitized in
  let sanitized := strip_underscores sanitized in
  upper sanitized.

Definition parse_group (file_stem : str) : outcome (str * str) :=
  if endswith file_stem "_MONITORING" then
    Return (drop_last (length ("_MONITORING" : str)) file_stem, "monitoring" : str)
  else if endswith file_stem "_PERFORMANCE" then
    Return (drop_last (length ("_PERFORMANCE" : str)) file_stem, "performance" : str)
  else
    Raise (ValueError ("Unable to determine category from filename: " ++ file_stem)).

Import ISSUE_HEADING_PATTERN.

(** The raw span of every match, [text[start:end]] before any trimming. *)
Definition sections (text : str) (matches : list Match) : list (Match * str) :=
  imap (fun idx m =>
          let start := m_end m in
          let stop := match matches !! S idx with
                      | Some next => m_start next
                      | None => length text
                      end in
          (m, slice text start stop)) matches.

Definition make_body (title section : str) : str :=
  let body_lines := [("## " : str) ++ title; []; section] in
  join [LF] (filter (fun line => line <> []) body_lines) ++ [LF].

Definition trim_section (raw : str) : str :=
  let section := strip raw in
  strip (TRAILING_RULE_PATTERN.sub_empty section).

(** [priority_match.group(1).strip() if priority_match else None]. *)
Definition priority_of (section : str) : option str :=
  strip <$> PRIORITY_PATTERN.search section.

(** [int(s)] on a run of ASCII digits.  Python refuses to convert a
    string of more than [sys.get_int_max_str_digits()] digits, leading
    zeros counted, and raises [ValueError]; the program leaves that limit
    at its default, 4300. *)
Definition INT_MAX_STR_DIGITS : nat := 4300.

Definition py_int (s : str) : outcome Z :=
  if (INT_MAX_STR_DIGITS <? length s)%nat then
    Raise (ValueError
             ("Exceeds the limit (4300 digits) for integer string conversion: value has "
                ++ str_of_int (Z.of_nat (length s))
                ++ " digits; use sys.set_int_max_str_digits() to increase the limit"))
  else Return (int_of_digits s).

(** The body of the loop over the matches: the issue of one match and
    its raw span, unless [int] raises. *)
Definition build_issue (source_path : Path) (group category : str)
    (m : Match) (raw : str) : outcome Issue :=
  match py_int (group1 m) with
  | Return issue_index =>
      let title := strip (group2 m) in
      let section := trim_section raw in
      let priority := priority_of section in
      Return {| title := title; source_issue_index := issue_index;
                group := group; category := category; sequence := 0;
                source_path := source_path; body := make_body title section;
                priority := priority; status := "pending";
                extra_frontmatter := [] |}
  | Raise e => Raise e
  | Timeout => Timeout
  end.

(** The loop: the issues are appended match after match, and the first
    exception ends it. *)
Fixpoint build_issues (source_path : Path) (group category : str)
    (spans : list (Match * str)) : outcome (list Issue) :=
  match spans with
  | [] => Return []
  | ms :: rest =>
      match build_issue source_path group category ms.1 ms.2 with
      | Return issue =>
          match build_issues source_path group category rest with
          | Return issues => Return (issue :: issues)
          | Raise e => Raise e
          | Timeout => Timeout
          end
      | Raise e => Raise e
      | Timeout => Timeout
      end
  end.

Definition extract_issues (source_path : Path) (text : str) : M (list Issue) :=
  match finditer text with
  | [] =>
      _ <- logging WARNING "No issues found in %s" source_path ;;
      ret []
  | matches =>
      '(group, category) <- (fun w => (parse_group (path_stem source_path), w)) ;;
      (fun w => (build_issues source_path group category (sections text matches), w))
  end.

Definition ensure_destination_dirs : gmap str Path :=
  {[ ("monitoring" : str) := path_div DEST_ROOT "monitoring";
     ("performance" : str) := path_div DEST_ROOT "performance" ]}.

Definition generate_filename (issue : Issue) (counters : gmap str Z)
    : Issue * gmap str Z * (str * str) :=
  let sequence := default 0 (counters !! category issue) + 1 in
  let counters := <[category issue := sequence]> counters in
  let issue := set_sequence issue sequence in
  let prefix := format_03d sequence in
  let title_part := sanitize_title (title issue) in
  let base_name := prefix ++ "_" ++ group issue ++ "_" ++ title_part in
  let filename := base_name ++ ".md" in
  (issue, counters, (base_name, filename)).

(** The name tried in round [k] of the collision loop. *)
Definition suffixed (destination_dir : Path) (base_name : str) (k : Z) : Path :=
  path_div destination_dir (base_name ++ "_" ++ str_of_int k ++ ".md").

(** The [while target_path.exists()] loop, at most [fuel] rounds. *)
Fixpoint collision_loop (fuel : nat) (destination_dir : Path) (base_name : str)
    (suffix : Z) (target_path : Path) : M Path :=
  taken <- path_exists target_path ;;
  if (taken : bool) then
    match fuel with
    | O => timeout
    | S fuel' =>
        collision_loop fuel' destination_dir base_name (suffix + 1)
          (suffixed destination_dir base_name suffix)
    end
  else ret target_path.

Definition write_issue (issue : Issue) (destination_dir : Path)
    (counters : gmap str Z) : M (Issue * gmap str Z) :=
  let '(issue, counters, (base_name, filename)) := generate_filename issue counters in
  n <- count_files ;;
  target_path <- collision_loop (S n) destination_dir base_name 1
                   (path_div destination_dir filename) ;;
  _ <- logging INFO "Writing %s" target_path ;;
  _ <- write_text target_path (document issue) ;;
  ret (issue, counters).

(** The loop is given one round more than there are files: the names it
    tries differ from one another, so it cannot need more (see
    [collision_loop_terminates]). *)

(** The first loop of [main]: every source file, in order. *)
Fixpoint extract_all (source_files : list (str * str)) : M (list Issue) :=
  match source_files with
  | [] => ret []
  | (name, text) :: rest =>
      extracted <- extract_issues (path_div SOURCE_DIR name) text ;;
      others <- extract_all rest ;;
      ret (extracted ++ others)
  end.

(** The second loop of [main]: every issue, in order; the issues come
    back with the sequence numbers they were given. *)
Fixpoint write_all (dest_dirs : gmap str Path) (all_issues : list Issue)
    (counters : gmap str Z) : M (list Issue * gmap str Z) :=
  match all_issues with
  | [] => ret ([], counters)
  | issue :: rest =>
      destination_dir <-
        match dest_dirs !! category issue with
        | Some d => ret d
        | None => raise (KeyError (category issue))
        end ;;
      '(issue', counters') <- write_issue issue destination_dir counters ;;
      '(rest', counters'') <- write_all dest_dirs rest counters' ;;
      ret (issue' :: rest', counters'')
  end.

(** [main]: [source_dir] is [None] when [SOURCE_DIR] does not exist, and
    otherwise lists the name and the text of every file that
    [sorted(SOURCE_DIR.glob("*.md"))] yields, in that order. *)
Definition main (source_dir : option (list (str * str))) : M (list Issue) :=
  match source_dir with
  | None => raise (FileNotFoundError "Source directory not found: " SOURCE_DIR)
  | Some source_files =>
      let dest_dirs := ensure_destination_dirs in
      let counters : gmap str Z := ∅ in
      all_issues <- extract_all source_files ;;
      '(written, _) <- write_all dest_dirs all_issues counters ;;
      ret written
  end.

(** ** Reading a record back *)

(** The integer a decimal rendering stands for. *)
Definition int_of_str (s : str) : option Z :=
  Z.of_int <$> DecimalString.NilZero.int_of_string (String.string_of_list_ascii s).

(** The reader of the round-trip property.  The program has no reader;
    these definitions follow the wording of the property: the block is
    the lines between the first line, a rule, and the next rule; a field
    is the first line made of the key, a colon, a blank and the quoted
    value, with every backslash-quote pair of the value read as a
    quote. *)
Module MetadataReader.

Fixpoint split_lines (s : str) : list str :=
  match s with
  | [] => [[]]
  | c :: s' =>
      if bool_decide (c = LF) then [] :: split_lines s'
      else match split_lines s' with
           | l :: ls => (c :: l) :: ls
           | [] => [[c]]
           end
  end.

Fixpoint until_rule (ls : list str) : option (list str) :=
  match ls with
  | [] => None
  | l :: ls' =>
      if bool_decide (l = ("---" : str)) then Some []
      else cons l <$> until_rule ls'
  end.

Definition metadata_block (doc : str) : option (list str) :=
  match split_lines doc with
  | l :: ls => if bool_decide (l = ("---" : str)) then until_rule ls else None
  | [] => None
  end.

Fixpoint unescape_quotes (s : str) : str :=
  match s with
  | [] => []
  | c :: s' =>
      match s' with
      | d :: s'' =>
          if bool_decide (c = BACKSLASH) && bool_decide (d = DQUOTE)
          then DQUOTE :: unescape_quotes s''
          else c :: unescape_quotes s'
      | [] => [c]
      end
  end.

Definition field_value (key line : str) : option str :=
  match strip_prefix (key ++ ": " ++ [DQUOTE]) line with
  | Some rest =>
      match rev rest with
      | q :: r =>
          if bool_decide (q = DQUOTE) then Some (unescape_quotes (rev r)) else None
      | [] => None
      end
  | None => None
  end.

Definition read_field (key : str) (block : list str) : option str :=
  head (omap (field_value key) block).

Record Metadata := {
  md_title : str;
  md_category : str;
  md_priority : str;
  md_sequence : Z;
  md_issue_index : Z
}.

Definition parse_metadata (doc : str) : option Metadata :=
  match metadata_block doc with
  | Some block =>
      match read_field "title" block, read_field "category" block,
            read_field "priority" block,
            read_field "sequence" block ≫= int_of_str,
            read_field "issue_index" block ≫= int_of_str with
      | Some t, Some c, Some p, Some s, Some i =>
          Some {| md_title := t; md_category := c; md_priority := p;
                  md_sequence := s; md_issue_index := i |}
      | _, _, _, _, _ => None
      end
  | None => None
  end.

End MetadataReader.
Import MetadataReader.

(** The values a record is produced from; an absent priority is written
    as the empty string. *)
Definition metadata_of (issue : Issue) : Metadata :=
  {| md_title := title issue; md_category := category issue;
     md_priority := default [] (priority issue);
     md_sequence := sequence issue;
     md_issue_index := source_issue_index issue |}.

Definition round_trip_keys : list str :=
  ["title" : str; "category" : str; "priority" : str; "sequence" : str;
   "issue_index" : str].

(** Reading the record of an issue gives back the values it was produced
    from. *)
Definition round_trip (issue : Issue) : Prop :=
  parse_metadata (document issue) = Some (metadata_of issue).

(** ** Statements and sample data *)

(** The label of a heading match is short enough for [int]. *)
Definition label_fits (m : Match) : Prop :=
  (length (group1 m) <= INT_MAX_STR_DIGITS)%nat.

(** The issue that [build_issue] returns when it returns. *)
Definition built_issue (source_path : Path) (group category : str)
    (m : Match) (raw : str) : Issue :=
  {| title := strip (group2 m); source_issue_index := int_of_digits (group1 m);
     group := group; category := category; sequence := 0;
     source_path := source_path;
     body := make_body (strip (group2 m)) (trim_section raw);
     priority := priority_of (trim_section raw); status := "pending";
     extra_frontmatter := [] |}.

(** Two issues written one after the other into [destination_dir]: both
    files are new when they are written, the first is still there with
    its content after the second, and in a directory holding neither the
    candidate name nor its [_1] variant the first issue gets the
    candidate name and the second the [_1] name. *)
Definition collision_outcome (issue1 issue2 : Issue) (destination_dir : Path)
    (counters1 counters2 : gmap str Z) (w : World) (base_name filename : str) : Prop :=
  exists (p1 p2 : Path) (w1 w2 : World),
    write_issue issue1 destination_dir counters1 w
      = (Return (generate_filename issue1 counters1).1, w1) /\
    write_issue issue2 destination_dir counters2 w1
      = (Return (generate_filename issue2 counters2).1, w2) /\
    files w !! p1 = None /\
    files w1 = <[p1 := document (generate_filename issue1 counters1).1.1]> (files w) /\
    files w1 !! p2 = None /\
    files w2 = <[p2 := document (generate_filename issue2 counters2).1.1]> (files w1) /\
    files w2 !! p1 = Some (document (generate_filename issue1 counters1).1.1) /\
    (files w !! path_div destination_dir filename = None ->
     files w !! suffixed destination_dir base_name 1 = None ->
     p1 = path_div destination_dir filename /\
     p2 = suffixed destination_dir base_name 1).

(** An issue of a document that the classifier accepts. *)
Definition recognized (i : Issue) : Prop :=
  (category i = ("monitoring" : str) \/ category i = ("performance" : str))
  /\ exists g c, parse_group (path_stem (source_path i)) = Return (g, c).

(** A run that started in [w] wrote no file for the document at [sp]:
    either it ended with an exception and left the files as they were, or
    none of the issues it wrote comes from [sp]. *)
Definition no_output_from (sp : Path) (w : World)
    (run : outcome (list Issue) * World) : Prop :=
  match run.1 with
  | Return written => Forall (fun i => source_path i <> sp) written
  | Raise _ => files run.2 = files w
  | Timeout => False
  end.

(** The sequence numbers given to the issues of one category, in
    processing order. *)
Definition sequences_of (c : str) (issues : list Issue) : list Z :=
  map sequence (filter (fun i => category i = c) issues).

Definition count_of (c : str) (issues : list Issue) : nat :=
  length (filter (fun i => category i = c) issues).

(** The matches lie one after the other between [lo] and [hi]. *)
Fixpoint in_order (lo hi : nat) (ms : list Match) : Prop :=
  match ms with
  | [] => (lo <= hi)%nat
  | m :: ms' =>
      (lo <= m_start m)%nat /\ (m_start m <= m_end m)%nat
      /\ in_order (m_end m) hi ms'
  end.

(** Where the first heading starts (the end of the text when there is
    none), and the text of a heading match. *)
Definition first_start (text : str) (ms : list Match) : nat :=
  match ms with
  | m :: _ => m_start m
  | [] => length text
  end.
Definition heading_text (text : str) (m : Match) : str :=
  slice text (m_start m) (m_end m).

(** *** Identifier characters *)

Definition identifier_char (c : ascii) : Prop :=
  is_upper c = true \/ is_digit c = true \/ c = UNDERSCORE.

(** *** The priority field *)

Definition is_label (l : str) : Prop :=
  l = ("**Priority:**" : str) \/ l = ("**Severity:**" : str).

(** In the text [r] that follows a label: white space [ws], then the
    non-empty text [t], which runs to the end of its line. *)
Definition line_text (r ws t : str) : Prop :=
  exists post,
    r = ws ++ t ++ post /\
    Forall (fun c => is_space c = true) ws /\
    t <> [] /\
    Forall (fun c => c <> LF) t /\
    (post = [] \/ exists p, post = LF :: p).

(** The field as the claim words it: label, colon and, on the same line,
    free text to the end of the line. *)
Definition same_line_field (span pre t : str) : Prop :=
  exists l r, span = pre ++ l ++ r /\ is_label l /\ line_text r [] t.

(** The field as the pattern has it: after the label, white space is
    passed over, line breaks included and as much of it as possible; the
    text is what follows, to the end of its line. *)
Definition priority_field (span pre t : str) : Prop :=
  exists l r ws,
    span = pre ++ l ++ r /\ is_label l /\ line_text r ws t /\
    forall ws' t', line_text r ws' t' -> (length ws' <= length ws)%nat.

(** The rule of the claim for a notion of field: the first field in
    textual order gives the priority, trimmed; without a field the
    priority is absent. *)
Definition priority_rule (field : str -> str -> str -> Prop) (span : str) : Prop :=
  (forall pre t,
      field span pre t ->
      (forall pre' t', field span pre' t' -> (length pre <= length pre')%nat) ->
      priority_of span = Some (strip t)) /\
  ((forall pre t, ~ field span pre t) -> priority_of span = None).

(** A trimmed span whose label stands alone on its line. *)
Definition label_alone_span : str :=
  ("**Priority:**" : str) ++ [LF] ++ ("High" : str).

(** Two more trimmed spans with a label alone on its line: one in front
    of another bold line, one in front of a note and a proper field; and a
    document whose one section is the first of them. *)
Definition label_then_status_span : str :=
  ("**Priority:**" : str) ++ [LF] ++ ("**Status:** open" : str).

Definition severity_then_priority_span : str :=
  ("**Severity:**" : str) ++ [LF] ++ ("note" : str) ++ [LF]
    ++ ("**Priority:** High" : str).

Definition label_then_status_document : str :=
  ("### 1. Leak" : str) ++ [LF] ++ label_then_status_span.

(** Does a label start at position [n] of [span], with a character other
    than a line break right after it? *)
Definition same_line_text_at (span : str) (n : nat) : bool :=
  match PRIORITY_PATTERN.label_here (drop n span) with
  | Some (c :: _) => negb (is_newline c)
  | _ => false
  end.

Definition empty_world : World := {| files := ∅; log := [] |}.

(** Three documents: two headings, one heading, one heading. *)
Definition sample_files : list (str * str) :=
  [("API_MONITORING.md" : str,
    ("### 1. Leak" : str) ++ [LF] ++ ("Body" : str) ++ [LF]
      ++ ("### 2. Timeout" : str) ++ [LF] ++ ("**Priority:** High" : str) ++ [LF]);
   ("DB_PERFORMANCE.md" : str, ("### 7. Slow query" : str) ++ [LF]);
   ("INFRA_MONITORING.md" : str, ("### 1. Disk" : str) ++ [LF] ++ ("Full" : str))].

(** A document that has a heading but no known suffix, and one that has
    neither. *)
Definition unknown_with_heading : str * str :=
  ("INFRA_UNKNOWN.md" : str, ("### 1. Leak" : str) ++ [LF] ++ ("Body" : str)).
Definition unknown_without_heading : str * str :=
  ("NOTES_UNKNOWN.md" : str, ("Nothing to report." : str)).

(** One issue whose section is a single line, and one whose section has
    a horizontal rule between two lines. *)
Definition one_line_document : str :=
  ("### 1. Leak" : str) ++ [LF] ++ ("Body" : str).
Definition rule_inside_document : str :=
  ("### 1. Leak" : str) ++ [LF] ++ ("first" : str) ++ [LF] ++ ("---" : str)
    ++ [LF] ++ ("second" : str).

Definition sample_issue : Issue :=
  {| title := "Leak"; source_issue_index := 1; group := "INFRA";
     category := "monitoring"; sequence := 0;
     source_path := path_div SOURCE_DIR "INFRA_MONITORING.md";
     body := ("## Leak" : str) ++ [LF] ++ ("Body" : str) ++ [LF];
     priority := None; status := "pending"; extra_frontmatter := [] |}.

(** An issue whose caller-supplied fields name a key of the record. *)
Definition retitled_issue : Issue :=
  {| title := "A"; source_issue_index := 1; group := "INFRA";
     category := "monitoring"; sequence := 1;
     source_path := path_div SOURCE_DIR "INFRA_MONITORING.md";
     body := ("## A" : str) ++ [LF];
     priority := None; status := "pending";
     extra_frontmatter := [("title" : str, "B" : str)] |}.

(** *** Runs *)

(** A source file on which extraction fails with [e]: it has a heading
    and the classifier rejects its name. *)
Definition unclassifiable (f : str * str) (e : Exception) : Prop :=
  ISSUE_HEADING_PATTERN.finditer f.2 <> [] /\
  parse_group (path_stem (path_div SOURCE_DIR f.1)) = Raise e.

Definition classifiable (f : str * str) : Prop := forall e, ~ unclassifiable f e.




(** The record that [write_issue] logs for the file at [p]. *)
Definition info_record (p : Path) : LogRecord :=
  {| level := INFO; msg := "Writing %s"; arg := p |}.

(** The path that [write_issue] tries first for an issue, seen from the
    issue that it returns, which carries its sequence number. *)
Definition candidate_path (i : Issue) : Path :=
  path_div (path_div DEST_ROOT (category i))
    ((format_03d (sequence i) ++ "_" ++ group i ++ "_" ++ sanitize_title (title i))
       ++ ".md").

(** No file lies in a directory of [DEST_ROOT]. *)
Definition fresh_destination (w : World) : Prop :=
  forall c name, files w !! path_div (path_div DEST_ROOT c) name = None.

(** Every file in a directory of [DEST_ROOT] is named by a sequence
    number that the counter of the directory has reached. *)
Definition numbered_below (counters : gmap str Z) (w : World) : Prop :=
  forall c name,
    is_Some (files w !! path_div (path_div DEST_ROOT c) name) ->
    exists n rest,
      0 <= n <= default 0 (counters !! c) /\ name = format_03d n ++ "_" ++ rest.

(** *** The form of a heading *)

(** A string at whose front a run of [p] stops. *)
Definition stops (p : ascii -> bool) (b : str) : Prop :=
  match b with
  | [] => True
  | c :: _ => p c = false
  end.


(** [s] begins with a heading of [len] characters whose number is [g1]
    and whose text is [g2]: three hashes, white space, digits, a dot,
    white space, and the text up to the end of its line.  Both runs of
    white space may hold line breaks, and the second one ends only in
    front of a character that is not white space, or with [s]. *)
Definition heading_at (s : str) (len : nat) (g1 g2 : str) : Prop :=
  exists ws1 ws2 rest,
    s = ("###" : str) ++ ws1 ++ g1 ++ ("." : str) ++ ws2 ++ g2 ++ rest /\
    len = (3 + length ws1 + length g1 + 1 + length ws2 + length g2)%nat /\
    ws1 <> [] /\ Forall (fun c => is_space c = true) ws1 /\
    g1 <> [] /\ Forall (fun c => is_digit c = true) g1 /\
    ws2 <> [] /\ Forall (fun c => is_space c = true) ws2 /\
    Forall (fun c => c <> LF) g2 /\
    match g2 with
    | c :: _ => is_space c = false
    | [] => rest = []
    end /\
    (rest = [] \/ exists t, rest = LF :: t).

(** The match [m] lies in [text] at the start of a line and has the form
    of a heading. *)
Definition heading_match (text : str) (m : Match) : Prop :=
  exists pre s,
    text = pre ++ s /\ m_start m = length pre /\
    (pre = [] \/ exists pre', pre = pre' ++ [LF]) /\
    heading_at s (m_end m - m_start m) (group1 m) (group2 m).

(** *** Extracted issues *)

(** What holds of every issue that [extract_issues] builds from the file
    at [sp]. *)
Definition extracted_issue (sp : Path) (i : Issue) : Prop :=
  source_path i = sp /\ sequence i = 0 /\ status i = ("pending" : str) /\
  extra_frontmatter i = [] /\
  0 <= source_issue_index i /\
  (LF ∉ title i) /\ strip (title i) = title i /\
  forall p, priority i = Some p -> p <> [] /\ (LF ∉ p) /\ strip p = p.

(** An extracted issue whose group and source path hold no line break. *)
Definition single_line_issue (i : Issue) : Prop :=
  (exists sp, extracted_issue sp i) /\ (LF ∉ group i) /\
  (category i = ("monitoring" : str) \/ category i = ("performance" : str)) /\
  (LF ∉ relative_to_ROOT (source_path i)).

(** The strings that [sanitize_title] returns: not empty, made of
    upper-case letters, digits and underscores, the underscores single
    and inside. *)
Definition clean_identifier (u : str) : Prop :=
  u <> [] /\
  Forall identifier_char u /\
  (forall a b, u <> a ++ UNDERSCORE :: UNDERSCORE :: b) /\
  (forall t, u <> UNDERSCORE :: t) /\
  (forall t, u <> t ++ [UNDERSCORE]).

(** The ASCII letters and digits of a string, in order. *)
Definition alnums (s : str) : str := filter (fun c => is_alnum c = true) s.

(** The issue with its caller-supplied fields taken away. *)
Definition without_extras (i : Issue) : Issue :=
  {| title := title i; source_issue_index := source_issue_index i;
     group := group i; category := category i; sequence := sequence i;
     source_path := source_path i; body := body i;
     priority := priority i; status := status i;
     extra_frontmatter := [] |}.

(** *** The log of extraction *)




(** A source file text whose one heading has a label of 4301 digits. *)
Definition overlong_document : str :=
  ("### " : str) ++ repeat "1"%char 4301 ++ (". Leak" : str).

(** * Properties *)

(** ** Strings *)
Section StringFacts.
Variable p : ascii -> bool.

Lemma take_drop_while (s : str) : take_while p s ++ drop_while p s = s.
Proof. induction s as [|c s IH]; simpl; [done|]. destruct (p c); simpl; congruence. Qed.

Lemma take_while_Forall (s : str) : Forall (fun c => p c = true) (take_while p s).
Proof.
  induction s as [|c s IH]; simpl; [constructor|].
  destruct (p c) eqn:E; constructor; auto.
Qed.

Lemma drop_while_head (s : str) c t : drop_while p s = c :: t -> p c = false.
Proof.
  induction s as [|d s IH]; simpl; [done|].
  destruct (p d) eqn:E; [auto|]. intros [= -> _]. done.
Qed.

Lemma drop_while_suffix (s : str) : exists pre, s = pre ++ drop_while p s.
Proof. exists (take_while p s). symmetry. apply take_drop_while. Qed.

Lemma drop_while_id (s : str) c t : s = c :: t -> p c = false -> drop_while p s = s.
Proof. intros -> H. simpl. by rewrite H. Qed.

Lemma rstrip_by_prefix (s : str) : exists post, s = rstrip_by p s ++ post.
Proof.
  unfold rstrip_by. destruct (drop_while_suffix (rev s)) as [pre E].
  exists (rev pre). rewrite <- rev_app_distr, <- E. by rewrite rev_involutive.
Qed.

Lemma rstrip_by_last (s : str) t c : rstrip_by p s = t ++ [c] -> p c = false.
Proof.
  unfold rstrip_by. intros E.
  assert (E' : drop_while p (rev s) = c :: rev t).
  { rewrite <- (rev_involutive (drop_while p (rev s))), E, rev_app_distr. done. }
  eapply drop_while_head, E'.
Qed.

Lemma strip_by_infix (s : str) : exists pre post, s = pre ++ strip_by p s ++ post.
Proof.
  unfold strip_by, lstrip_by.
  destruct (drop_while_suffix s) as [pre E].
  destruct (rstrip_by_prefix (drop_while p s)) as [post E'].
  exists pre, post. by rewrite <- E', <- E.
Qed.

Lemma strip_by_last (s : str) t c : strip_by p s = t ++ [c] -> p c = false.
Proof. apply rstrip_by_last. Qed.

Lemma strip_by_head (s : str) c t : strip_by p s = c :: t -> p c = false.
Proof.
  unfold strip_by, lstrip_by. intros E.
  destruct (rstrip_by_prefix (drop_while p s)) as [post E'].
  rewrite E in E'. eapply drop_while_head, E'.
Qed.

(** A string that neither starts nor ends with a character of the
    class is left as it is. *)
Lemma rstrip_by_id (s : str) :
  (forall t c, s = t ++ [c] -> p c = false) -> rstrip_by p s = s.
Proof.
  intros H. unfold rstrip_by.
  destruct (rev s) as [|c r] eqn:E.
  - simpl. by rewrite <- (rev_involutive s), E.
  - rewrite (drop_while_id (c :: r) c r); [|done|].
    + by rewrite <- E, rev_involutive.
    + apply (H (rev r)). by rewrite <- (rev_involutive s), E.
Qed.

Lemma strip_by_idemp (s : str) : strip_by p (strip_by p s) = strip_by p s.
Proof.
  unfold strip_by at 1. unfold lstrip_by.
  destruct (strip_by p s) as [|c t] eqn:E; [done|].
  rewrite (drop_while_id (c :: t) c t); [|done|by eapply strip_by_head].
  rewrite <- E. apply rstrip_by_id. intros t' c' E'. eapply strip_by_last, E'.
Qed.

(** [sub_runs] with a one-character replacement. *)
Variable r : ascii.

Lemma sub_runs_Forall (Q : ascii -> Prop) b (s : str) :
  Q r -> Forall (fun c => p c = false -> Q c) s -> Forall Q (sub_runs p [r] b s).
Proof.
  intros Hr Hs. revert b. induction Hs as [|c s Hc Hs IH]; intros b; simpl; [constructor|].
  destruct (p c) eqn:E.
  - destruct b; simpl; [apply IH|constructor; [done|apply IH]].
  - constructor; auto.
Qed.

Lemma sub_runs_in_run_head (s : str) y t :
  sub_runs p [r] true s = y :: t -> p y = false.
Proof.
  induction s as [|c s IH]; simpl; [done|].
  destruct (p c) eqn:E; [done|]. by intros [= <- _].
Qed.

Lemma sub_runs_no_double b (s : str) a x y t :
  sub_runs p [r] b s = a ++ x :: y :: t -> p x = true -> p y = true -> False.
Proof.
  revert b a. induction s as [|c s IH]; intros b a; simpl.
  { by destruct a. }
  destruct (p c) eqn:E.
  - destruct b; [apply IH|]. simpl.
    destruct a as [|a0 a]; simpl.
    + intros [= _ E'] _ Hy. apply sub_runs_in_run_head in E'. congruence.
    + intros [= _ E'] Hx Hy. exact (IH _ _ E' Hx Hy).
  - destruct a as [|a0 a]; simpl.
    + intros [= -> _]. congruence.
    + intros [= _ E'] Hx Hy. exact (IH _ _ E' Hx Hy).
Qed.
End StringFacts.

(** ** Sanitizer *)

Lemma upper_char_identifier c :
  is_alnum c = true \/ c = UNDERSCORE -> identifier_char (upper_char c).
Proof.
  unfold identifier_char, upper_char, is_alnum.
  intros [H| ->]; [|right; right; reflexivity].
  destruct (is_lower c) eqn:El.
  - left. revert El. unfold is_lower, is_upper, in_range, code.
    destruct c as [[] [] [] [] [] [] [] []]; vm_compute; congruence.
  - rewrite orb_false_r in H. apply orb_true_iff in H. tauto.
Qed.

Lemma upper_char_underscore c : upper_char c = UNDERSCORE -> c = UNDERSCORE.
Proof.
  unfold upper_char. destruct (is_lower c) eqn:El; [|done].
  revert El. unfold is_lower, in_range, code.
  destruct c as [[] [] [] [] [] [] [] []]; vm_compute; congruence.
Qed.

Lemma is_underscore_true c : is_underscore c = true <-> c = UNDERSCORE.
Proof. unfold is_underscore. apply bool_decide_eq_true. Qed.

Lemma sanitized_chars (value : str) :
  Forall (fun c => is_alnum c = true \/ c = UNDERSCORE)
    (sub_runs is_underscore "_" false
       (sub_runs (fun c => negb (is_alnum c)) "_" false (strip value))).
Proof.
  apply (sub_runs_Forall is_underscore UNDERSCORE); [by right|].
  eapply Forall_impl.
  - apply (sub_runs_Forall (fun c => negb (is_alnum c)) UNDERSCORE
             (fun c => is_alnum c = true \/ c = UNDERSCORE)); [by right|].
    apply Forall_forall. intros c _ H. left. by apply negb_false_iff.
  - simpl. auto.
Qed.

(** ** Letters and digits under the steps of the sanitizer *)

Lemma alnums_app (a b : str) : alnums (a ++ b) = alnums a ++ alnums b.
Proof. apply filter_app. Qed.

Lemma alnums_cons_false c (s : str) : is_alnum c = false -> alnums (c :: s) = alnums s.
Proof. intros H. unfold alnums. rewrite filter_cons_False; [done|congruence]. Qed.

Lemma alnums_cons_true c (s : str) : is_alnum c = true -> alnums (c :: s) = c :: alnums s.
Proof. intros H. unfold alnums. by rewrite filter_cons_True. Qed.

Lemma alnums_rev (s : str) : alnums (rev s) = rev (alnums s).
Proof.
  induction s as [|c s IH]; [done|]. cbn [rev]. rewrite alnums_app, IH.
  destruct (is_alnum c) eqn:E.
  - by rewrite !alnums_cons_true.
  - rewrite !alnums_cons_false by done. cbn. by rewrite app_nil_r.
Qed.

Section Alnums.
Variable p : ascii -> bool.
Hypothesis p_not_alnum : forall c, p c = true -> is_alnum c = false.

Lemma alnums_drop_while (s : str) : alnums (drop_while p s) = alnums s.
Proof.
  induction s as [|c s IH]; [done|]. cbn [drop_while]. destruct (p c) eqn:E; [|done].
  by rewrite IH, alnums_cons_false by auto.
Qed.

Lemma alnums_strip_by (s : str) : alnums (strip_by p s) = alnums s.
Proof.
  unfold strip_by, rstrip_by, lstrip_by.
  by rewrite alnums_rev, alnums_drop_while, alnums_rev, rev_involutive,
    alnums_drop_while.
Qed.

Lemma alnums_sub_runs (r : ascii) (b : bool) (s : str) :
  is_alnum r = false -> alnums (sub_runs p [r] b s) = alnums s.
Proof.
  intros Hr. revert b. induction s as [|c s IH]; intros b; [done|]. cbn [sub_runs].
  destruct (p c) eqn:E.
  - rewrite (alnums_cons_false c) by auto.
    destruct b; [apply IH|]. cbn [app]. by rewrite alnums_cons_false, IH.
  - destruct (is_alnum c) eqn:Ea.
    + by rewrite !alnums_cons_true, IH.
    + by rewrite !alnums_cons_false, IH.
Qed.

Lemma strip_by_all (s : str) : Forall (fun c => p c = true) s -> strip_by p s = [].
Proof.
  intros H. unfold strip_by, lstrip_by.
  replace (drop_while p s) with ([] : str); [done|].
  induction H as [|c s Hc _ IH]; cbn; [done|]. by rewrite Hc.
Qed.

End Alnums.

Lemma space_not_alnum c : is_space c = true -> is_alnum c = false.
Proof. destruct c as [[] [] [] [] [] [] [] []]; vm_compute; congruence. Qed.

Lemma underscore_not_alnum c : is_underscore c = true -> is_alnum c = false.
Proof. by intros ->%is_underscore_true. Qed.

Lemma upper_char_alnum c : is_alnum (upper_char c) = is_alnum c.
Proof. destruct c as [[] [] [] [] [] [] [] []]; reflexivity. Qed.

Lemma alnums_upper (s : str) : alnums (upper s) = upper (alnums s).
Proof.
  induction s as [|c s IH]; [done|]. cbn [upper map].
  destruct (is_alnum c) eqn:E.
  - rewrite !alnums_cons_true by (by rewrite ?upper_char_alnum). cbn. by f_equal.
  - by rewrite !alnums_cons_false by (by rewrite ?upper_char_alnum).
Qed.

Lemma no_alnums_underscores (s : str) :
  Forall (fun c => is_alnum c = true \/ c = UNDERSCORE) s ->
  alnums s = [] -> Forall (fun c => is_underscore c = true) s.
Proof.
  induction 1 as [|c s Hc _ IH]; [constructor|]. intros E.
  destruct (is_alnum c) eqn:Ea.
  - by rewrite alnums_cons_true in E.
  - rewrite alnums_cons_false in E by done. constructor; [|by apply IH].
    destruct Hc as [?| ->]; [congruence|done].
Qed.

(** ** The sanitizer *)

Lemma sanitize_title_clean (value : str) : clean_identifier (sanitize_title value).
Proof.
  unfold sanitize_title.
  set (s2 := sub_runs is_underscore _ false _).
  assert (Hchars : Forall identifier_char (upper (strip_underscores s2))).
  { unfold upper. apply Forall_map.
    destruct (strip_by_infix is_underscore s2) as (pre & post & E).
    pose proof (sanitized_chars value) as H. fold s2 in H. rewrite E in H.
    apply Forall_app in H as [_ H]. apply Forall_app in H as [H _].
    eapply Forall_impl; [exact H|]. intros c Hc. by apply upper_char_identifier. }
  assert (Hdouble : forall a b,
             upper (strip_underscores s2) <> a ++ UNDERSCORE :: UNDERSCORE :: b).
  { intros a b E. unfold upper in E.
    apply map_eq_app in E as (a' & t' & E & _ & E2).
    apply map_eq_cons in E2 as (x & t'' & -> & Hx & E3).
    apply map_eq_cons in E3 as (y & b' & -> & Hy & _).
    apply upper_char_underscore in Hx, Hy. subst x y.
    destruct (strip_by_infix is_underscore s2) as (pre & post & E').
    unfold strip_underscores in E. rewrite E in E'.
    assert (Hs2 : s2 = (pre ++ a') ++ UNDERSCORE :: UNDERSCORE :: (b' ++ post)).
    { rewrite E', <- !app_assoc. reflexivity. }
    exact (sub_runs_no_double is_underscore UNDERSCORE false _ _ _ _ _
             Hs2 eq_refl eq_refl). }
  assert (Hhead : forall t, upper (strip_underscores s2) <> UNDERSCORE :: t).
  { intros t E. unfold upper in E.
    apply map_eq_cons in E as (x & t' & E & Hx & _).
    apply upper_char_underscore in Hx. subst x.
    by apply strip_by_head in E. }
  assert (Hlast : forall t, upper (strip_underscores s2) <> t ++ [UNDERSCORE]).
  { intros t E. unfold upper in E.
    apply map_eq_app in E as (t' & l & E & _ & E2).
    apply map_eq_cons in E2 as (x & n & -> & Hx & En).
    apply map_eq_nil in En. subst n.
    apply upper_char_underscore in Hx. subst x.
    by apply strip_by_last in E. }
  destruct (upper (strip_underscores s2)) as [|c u] eqn:Eu.
  - split; [done|]. split.
    { repeat constructor; vm_compute; auto. }
    split; [|split].
    + intros a b E.
      do 8 (destruct a as [|? a]; [discriminate E|injection E as _ E]).
      by destruct a.
    + intros t E. discriminate E.
    + intros t E.
      do 8 (destruct t as [|? t]; [discriminate E|injection E as _ E]).
      by destruct t.
  - split; [done|]. auto.
Qed.

Lemma normalize_title_alnums (value : str) :
  alnums (normalize_title value) = upper (alnums value).
Proof.
  unfold normalize_title. rewrite alnums_upper. unfold strip_underscores.
  rewrite (alnums_strip_by is_underscore underscore_not_alnum).
  change (String.list_ascii_of_string "_") with [UNDERSCORE].
  rewrite (alnums_sub_runs is_underscore underscore_not_alnum UNDERSCORE) by done.
  rewrite (alnums_sub_runs (fun c => negb (is_alnum c))
             (fun c H => proj1 (negb_true_iff _) H) UNDERSCORE) by done.
  f_equal. apply alnums_strip_by, space_not_alnum.
Qed.

Lemma normalize_title_nil (value : str) :
  normalize_title value = [] <-> alnums value = [].
Proof.
  split.
  - intros E. pose proof (normalize_title_alnums value) as H.
    rewrite E in H. by destruct (alnums value).
  - intros E. unfold normalize_title.
    set (s2 := sub_runs is_underscore _ false _).
    assert (E2 : alnums s2 = []).
    { pose proof (normalize_title_alnums value) as H. rewrite E in H.
      unfold normalize_title in H. fold s2 in H.
      rewrite alnums_upper in H. unfold strip_underscores in H.
      rewrite (alnums_strip_by is_underscore underscore_not_alnum) in H.
      by destruct (alnums s2). }
    pose proof (no_alnums_underscores s2 (sanitized_chars value) E2) as Hall.
    unfold strip_underscores. by rewrite (strip_by_all is_underscore s2 Hall).
Qed.

(** C6: for every input, [sanitize_title] returns a non-empty string of
    upper-case ASCII letters, digits and underscores, in which no two
    underscores are adjacent and which neither starts nor ends with an
    underscore.  When the normalized title is empty the result is the
    literal [UNTITLED], and otherwise it is the normalized title itself;
    the normalized title is empty exactly when the input has no ASCII
    letter or digit, and its letters and digits are those of the input, in
    order and in upper case.  Being a total function, [sanitize_title]
    returns for every input. *)
Theorem sanitize_title_identifier (value : str) :
  sanitize_title value <> [] /\
  Forall identifier_char (sanitize_title value) /\
  (forall a b, sanitize_title value <> a ++ UNDERSCORE :: UNDERSCORE :: b) /\
  (forall t, sanitize_title value <> UNDERSCORE :: t) /\
  (forall t, sanitize_title value <> t ++ [UNDERSCORE]) /\
  (normalize_title value = [] -> sanitize_title value = ("UNTITLED" : str)) /\
  (normalize_title value <> [] -> sanitize_title value = normalize_title value) /\
  (normalize_title value = [] <-> alnums value = []) /\
  alnums (normalize_title value) = upper (alnums value).
Proof.
  destruct (sanitize_title_clean value) as (H1 & H2 & H3 & H4 & H5).
  do 5 (split; [assumption|]).
  assert (E : sanitize_title value =
              match normalize_title value with
              | [] => ("UNTITLED" : str)
              | u => u
              end) by reflexivity.
  split; [|split; [|split]].
  - intros En. by rewrite E, En.
  - intros Hn. rewrite E. by destruct (normalize_title value).
  - apply normalize_title_nil.
  - apply normalize_title_alnums.
Qed.

Lemma sanitize_title_identifier_witness :
  sanitize_title " -- " = ("UNTITLED" : str) /\
  sanitize_title " memory leak! " = normalize_title " memory leak! " /\
  normalize_title " memory leak! " = ("MEMORY_LEAK" : str).
Proof.
  split; [|split].
  - apply (proj1 (proj2 (proj2 (proj2 (proj2 (proj2
             (sanitize_title_identifier " -- "))))))).
    reflexivity.
  - apply (proj1 (proj2 (proj2 (proj2 (proj2 (proj2 (proj2
             (sanitize_title_identifier " memory leak! ")))))))).
    discriminate.
  - reflexivity.
Defined.
(** ** Document classifier *)

Lemma endswith_app (g suffix : str) : endswith (g ++ suffix) suffix = true.
Proof.
  unfold endswith. apply bool_decide_eq_true.
  rewrite length_app, Nat.add_sub. apply drop_app_length.
Qed.

Lemma endswith_inv (s suffix : str) :
  endswith s suffix = true -> s = drop_last (length suffix) s ++ suffix.
Proof.
  unfold endswith, drop_last. intros H. apply bool_decide_eq_true in H.
  rewrite <- (take_drop (length s - length suffix) s) at 1. by rewrite H.
Qed.

Lemma drop_last_app (g suffix : str) : drop_last (length suffix) (g ++ suffix) = g.
Proof. unfold drop_last. rewrite length_app, Nat.add_sub. apply take_app_length. Qed.

Lemma performance_not_monitoring (g : str) :
  endswith (g ++ "_PERFORMANCE") "_MONITORING" = false.
Proof.
  destruct (endswith _ _) eqn:E; [|done].
  apply endswith_inv in E. set (g' := drop_last _ _) in E.
  change (g ++ ("_PERFORMANC" : str) ++ ["E"%char]
          = g' ++ ("_MONITORIN" : str) ++ ["G"%char]) in E.
  rewrite !app_assoc in E. apply app_inj_tail in E as [_ E]. discriminate E.
Qed.

Lemma parse_group_monitoring (g : str) :
  parse_group (g ++ "_MONITORING") = Return (g, "monitoring" : str).
Proof. unfold parse_group. by rewrite endswith_app, drop_last_app. Qed.

Lemma parse_group_performance (g : str) :
  parse_group (g ++ "_PERFORMANCE") = Return (g, "performance" : str).
Proof.
  unfold parse_group.
  by rewrite performance_not_monitoring, endswith_app, drop_last_app.
Qed.

Lemma parse_group_other (file_stem : str) :
  endswith file_stem "_MONITORING" = false ->
  endswith file_stem "_PERFORMANCE" = false ->
  parse_group file_stem =
    Raise (ValueError ("Unable to determine category from filename: " ++ file_stem)).
Proof. unfold parse_group. by intros -> ->. Qed.

Lemma parse_group_category (file_stem g c : str) :
  parse_group file_stem = Return (g, c) ->
  c = ("monitoring" : str) \/ c = ("performance" : str).
Proof.
  unfold parse_group. repeat case_match; intros [= _ <-]; auto.
Qed.

(** ** Extraction *)

Lemma extract_issues_files sp text w :
  files (extract_issues sp text w).2 = files w.
Proof.
  unfold extract_issues. destruct (ISSUE_HEADING_PATTERN.finditer text); [done|].
  unfold bind. destruct (parse_group _) as [[g c]| |]; done.
Qed.

Lemma sections_fst (text : str) (ms : list Match) : map fst (sections text ms) = ms.
Proof.
  unfold sections. apply list_eq. intros i.
  change (map fst ?l) with (fst <$> l).
  rewrite list_lookup_fmap, list_lookup_imap. by destruct (ms !! i).
Qed.

Lemma py_int_Return (s : str) (z : Z) :
  py_int s = Return z <->
  (length s <= INT_MAX_STR_DIGITS)%nat /\ z = int_of_digits s.
Proof.
  unfold py_int. destruct (INT_MAX_STR_DIGITS <? length s)%nat eqn:E.
  - apply Nat.ltb_lt in E. split; [done|]. intros [H _]. lia.
  - apply Nat.ltb_ge in E. split; [by intros [= <-]|by intros [_ ->]].
Qed.

Lemma py_int_Raise (s : str) (e : Exception) :
  py_int s = Raise e ->
  (INT_MAX_STR_DIGITS < length s)%nat /\
  e = ValueError
        ("Exceeds the limit (4300 digits) for integer string conversion: value has "
           ++ str_of_int (Z.of_nat (length s))
           ++ " digits; use sys.set_int_max_str_digits() to increase the limit").
Proof.
  unfold py_int. destruct (INT_MAX_STR_DIGITS <? length s)%nat eqn:E; [|done].
  apply Nat.ltb_lt in E. by intros [= <-].
Qed.

Lemma py_int_outcome (s : str) :
  (length s <= INT_MAX_STR_DIGITS)%nat /\ py_int s = Return (int_of_digits s) \/
  (INT_MAX_STR_DIGITS < length s)%nat /\ exists e, py_int s = Raise e.
Proof.
  unfold py_int. destruct (INT_MAX_STR_DIGITS <? length s)%nat eqn:E.
  - apply Nat.ltb_lt in E. right. eauto.
  - apply Nat.ltb_ge in E. by left.
Qed.

Lemma build_issue_fits sp (g c : str) m raw :
  label_fits m -> build_issue sp g c m raw = Return (built_issue sp g c m raw).
Proof.
  intros H. unfold build_issue.
  destruct (py_int_outcome (group1 m)) as [[_ ->]|[H' _]]; [done|].
  unfold label_fits in H. lia.
Qed.

Lemma build_issue_overlong sp (g c : str) m raw :
  ~ label_fits m ->
  exists e, py_int (group1 m) = Raise e /\ build_issue sp g c m raw = Raise e.
Proof.
  intros H. unfold build_issue.
  destruct (py_int_outcome (group1 m)) as [[H' _]|[_ [e E]]]; [done|].
  rewrite E. eauto.
Qed.

Lemma build_issues_outcome sp (g c : str) (l : list (Match * str)) :
  match build_issues sp g c l with
  | Return issues =>
      Forall (fun ms => label_fits ms.1) l /\
      issues = map (fun ms => built_issue sp g c ms.1 ms.2) l
  | Raise e =>
      exists pre ms post,
        l = pre ++ ms :: post /\ Forall (fun ms => label_fits ms.1) pre /\
        ~ label_fits ms.1 /\ py_int (group1 ms.1) = Raise e
  | Timeout => False
  end.
Proof.
  induction l as [|ms l IH]; cbn [build_issues]; [by split|].
  destruct (decide (label_fits ms.1)) as [Hfit|Hlong].
  - rewrite (build_issue_fits _ _ _ _ _ Hfit).
    destruct (build_issues sp g c l) as [issues|e|]; [| |done].
    + destruct IH as [Hall ->]. split; [by constructor|done].
    + destruct IH as (pre & ms' & post & -> & Hpre & Hm & He).
      exists (ms :: pre), ms', post. split; [done|]. split; [by constructor|done].
  - destruct (build_issue_overlong sp g c ms.1 ms.2 Hlong) as (e & E & ->).
    exists [], ms, l. split; [done|]. split; [constructor|done].
Qed.

Lemma extract_issues_eval sp text w :
  extract_issues sp text w =
    match ISSUE_HEADING_PATTERN.finditer text with
    | [] =>
        (Return [],
         {| files := files w;
            log := log w ++ [{| level := WARNING; msg := "No issues found in %s";
                                arg := sp |}] |})
    | m :: ms =>
        match parse_group (path_stem sp) with
        | Return (g, c) => (build_issues sp g c (sections text (m :: ms)), w)
        | Raise e => (Raise e, w)
        | Timeout => (Timeout, w)
        end
    end.
Proof.
  unfold extract_issues. destruct (ISSUE_HEADING_PATTERN.finditer text); [done|].
  unfold bind. by destruct (parse_group _) as [[g c]| |].
Qed.

Lemma parse_group_no_timeout (file_stem : str) : parse_group file_stem <> Timeout.
Proof. unfold parse_group. by repeat case_match. Qed.

(** What a returning extraction has done. *)
Lemma extract_issues_Return sp text w issues :
  (extract_issues sp text w).1 = Return issues ->
  ISSUE_HEADING_PATTERN.finditer text = [] /\ issues = [] \/
  ISSUE_HEADING_PATTERN.finditer text <> [] /\
  exists g c,
    parse_group (path_stem sp) = Return (g, c) /\
    Forall label_fits (ISSUE_HEADING_PATTERN.finditer text) /\
    issues = map (fun ms => built_issue sp g c ms.1 ms.2)
                 (sections text (ISSUE_HEADING_PATTERN.finditer text)).
Proof.
  rewrite extract_issues_eval.
  destruct (ISSUE_HEADING_PATTERN.finditer text) as [|m ms] eqn:Em.
  { cbn. intros [= <-]. by left. }
  rewrite <- Em. destruct (parse_group _) as [[g c]| |] eqn:Ep; cbn [fst]; [|done|done].
  pose proof (build_issues_outcome sp g c
                (sections text (ISSUE_HEADING_PATTERN.finditer text))) as H.
  intros E. rewrite E in H. destruct H as [Hall ->]. right.
  split; [by rewrite Em|]. exists g, c. split; [done|]. split; [|done].
  rewrite <- (sections_fst text (ISSUE_HEADING_PATTERN.finditer text)).
  by apply Forall_map.
Qed.

Lemma extract_issues_outcome sp text w :
  match (extract_issues sp text w).1 with
  | Return issues => Forall (fun i => source_path i = sp /\ recognized i) issues
  | Raise e => ISSUE_HEADING_PATTERN.finditer text <> []
  | Timeout => False
  end.
Proof.
  destruct (extract_issues sp text w).1 as [issues|e|] eqn:E.
  - apply extract_issues_Return in E as [[_ ->]|(_ & g & c & Ep & _ & ->)];
      [constructor|].
    apply Forall_forall. intros i Hi.
    apply list_elem_of_In, in_map_iff in Hi as ([m' raw] & <- & _).
    unfold recognized. cbn [fst snd built_issue category source_path].
    split; [done|]. split; [eapply parse_group_category, Ep|eauto].
  - rewrite extract_issues_eval in E. by destruct (ISSUE_HEADING_PATTERN.finditer text).
  - rewrite extract_issues_eval in E.
    destruct (ISSUE_HEADING_PATTERN.finditer text) as [|m ms]; [done|].
    destruct (parse_group _) as [[g c]| |] eqn:Ep; cbn [fst] in E; [|done|].
    + pose proof (build_issues_outcome sp g c (sections text (m :: ms))) as H.
      by rewrite E in H.
    + by apply parse_group_no_timeout in Ep.
Qed.

Lemma extract_all_spec source_files w :
  files (extract_all source_files w).2 = files w /\
  match (extract_all source_files w).1 with
  | Return issues => Forall recognized issues
  | Raise e => True
  | Timeout => False
  end.
Proof.
  revert w. induction source_files as [|[name text] rest IH]; intros w.
  { cbn. by split. }
  cbn [extract_all]. unfold bind.
  pose proof (extract_issues_outcome (path_div SOURCE_DIR name) text w) as Ho.
  pose proof (extract_issues_files (path_div SOURCE_DIR name) text w) as Hf.
  destruct (extract_issues (path_div SOURCE_DIR name) text w) as [[x| |] w1];
    cbn [fst snd] in *; [|by split|done].
  specialize (IH w1).
  destruct (extract_all rest w1) as [[y| |] w2]; cbn [fst snd ret] in *.
  - destruct IH as [IHf IHo]. split; [congruence|].
    apply Forall_app. split; [|done].
    eapply Forall_impl; [exact Ho|]. by intros i [_ Hi].
  - destruct IH as [IHf _]. split; [congruence|done].
  - by destruct IH.
Qed.

(** ** Decimal renderings *)

Lemma int_of_str_of_int (z : Z) : int_of_str (str_of_int z) = Some z.
Proof.
  unfold int_of_str, str_of_int.
  rewrite String.string_of_list_ascii_of_string.
  rewrite DecimalString.NilZero.isi.
  - simpl. by rewrite DecimalZ.of_to.
  - destruct z; simpl; [done| |done].
    intros [= E]. by apply DecimalPos.Unsigned.to_uint_nonnil in E.
  - destruct z; simpl; [done|done|].
    intros [= E]. by apply DecimalPos.Unsigned.to_uint_nonnil in E.
Qed.

Lemma str_of_int_inj (a b : Z) : str_of_int a = str_of_int b -> a = b.
Proof.
  intros E. pose proof (int_of_str_of_int a) as Ha.
  rewrite E, int_of_str_of_int in Ha. congruence.
Qed.

Lemma suffixed_inj d b (j k : Z) : suffixed d b j = suffixed d b k -> j = k.
Proof.
  unfold suffixed, path_div. intros E.
  apply app_inv_head in E. injection E as E.
  apply app_inv_head in E. apply (app_inv_head ("_" : str)) in E.
  apply app_inv_tail in E. by apply str_of_int_inj.
Qed.

(** ** The collision loop *)

Lemma collision_loop_spec fuel d b (s : Z) t w :
  match collision_loop fuel d b s t w with
  | (Return p, w') =>
      w' = w /\ files w !! p = None /\
      (p = t \/
       is_Some (files w !! t) /\
       exists k, s <= k < s + Z.of_nat fuel /\ p = suffixed d b k /\
                 forall j, s <= j < k -> is_Some (files w !! suffixed d b j))
  | (Raise _, _) => False
  | (Timeout, w') =>
      w' = w /\ is_Some (files w !! t) /\
      forall j, s <= j < s + Z.of_nat fuel -> is_Some (files w !! suffixed d b j)
  end.
Proof.
  revert s t. induction fuel as [|fuel IH]; intros s t;
    cbn [collision_loop]; unfold bind, path_exists; cbn [fst snd].
  - case_bool_decide as Ht; cbn.
    + split; [done|]. split; [done|]. intros j Hj. lia.
    + split; [done|]. split; [|by left]. by apply eq_None_not_Some.
  - case_bool_decide as Ht; cbn.
    + specialize (IH (s + 1) (suffixed d b s)).
      destruct (collision_loop fuel d b (s + 1) (suffixed d b s) w) as [[p| |] w'].
      * destruct IH as (-> & Hfree & [-> | (Hs & k & Hk & -> & Hall)]).
        -- split; [done|]. split; [done|]. right. split; [done|].
           exists s. split; [lia|]. split; [done|]. intros j Hj. lia.
        -- split; [done|]. split; [done|]. right. split; [done|].
           exists k. split; [lia|]. split; [done|]. intros j Hj.
           destruct (decide (j = s)) as [->|Hne]; [done|]. apply Hall. lia.
      * done.
      * destruct IH as (-> & Hs & Hall). split; [done|]. split; [done|].
        intros j Hj. destruct (decide (j = s)) as [->|Hne]; [done|]. apply Hall. lia.
    + split; [done|]. split; [|by left]. by apply eq_None_not_Some.
Qed.

(** The names tried are pairwise different, so more rounds than there are
    files are never needed. *)
Lemma collision_loop_terminates fuel d b (s : Z) t w :
  (size (files w) < fuel)%nat -> (collision_loop fuel d b s t w).1 <> Timeout.
Proof.
  intros Hsize Ht. pose proof (collision_loop_spec fuel d b s t w) as H.
  destruct (collision_loop fuel d b s t w) as [[p| |] w']; try discriminate Ht.
  destruct H as (_ & _ & Hall).
  set (names := (fun i : nat => suffixed d b (s + Z.of_nat i)) <$> seq 0 fuel).
  assert (Hnodup : NoDup names).
  { apply NoDup_fmap_2; [|apply NoDup_seq].
    intros i j E. apply suffixed_inj in E. lia. }
  assert (Hsub : (list_to_set names : gset Path) ⊆ dom (files w)).
  { intros q Hq. apply elem_of_list_to_set, list_elem_of_fmap in Hq as (i & -> & Hi).
    apply elem_of_seq in Hi. apply elem_of_dom, Hall. lia. }
  apply subseteq_size in Hsub.
  rewrite size_list_to_set, size_dom in Hsub; [|done].
  unfold names in Hsub. rewrite length_fmap, length_seq in Hsub. lia.
Qed.

(** ** Writing one issue *)

Lemma write_issue_spec issue d counters w :
  exists p,
    write_issue issue d counters w =
      (Return ((generate_filename issue counters).1),
       {| files := <[p := document (generate_filename issue counters).1.1]> (files w);
          log := log w ++ [{| level := INFO; msg := "Writing %s"; arg := p |}] |}) /\
    files w !! p = None /\
    (p = path_div d (generate_filename issue counters).2.2 \/
     is_Some (files w !! path_div d (generate_filename issue counters).2.2) /\
     exists k, 1 <= k /\ p = suffixed d (generate_filename issue counters).2.1 k /\
               forall j, 1 <= j < k ->
                         is_Some (files w !! suffixed d (generate_filename issue counters).2.1 j)).
Proof.
  unfold write_issue.
  destruct (generate_filename issue counters) as [[i' c'] [b f]]. cbn [fst snd].
  unfold bind at 1. unfold count_files. cbn [fst snd]. unfold bind at 1.
  pose proof (collision_loop_spec (S (size (files w))) d b 1 (path_div d f) w) as H.
  pose proof (collision_loop_terminates (S (size (files w))) d b 1 (path_div d f) w) as Ht.
  destruct (collision_loop _ d b 1 (path_div d f) w) as [[p| |] w']; [|done|].
  - destruct H as (-> & Hfree & Hp). exists p. split; [done|]. split; [done|].
    destruct Hp as [->|(Hf & k & Hk & -> & Hall)]; [by left|right].
    split; [done|]. exists k. split; [lia|]. by split.
  - exfalso. apply Ht; [lia|done].
Qed.

Lemma suffixed_not_plain d b (k : Z) : suffixed d b k <> path_div d (b ++ ".md").
Proof.
  unfold suffixed, path_div. intros E.
  apply app_inv_head in E. injection E as E.
  apply app_inv_head in E. discriminate E.
Qed.

(** C5: when two issues have the same candidate file name, writing the
    second never overwrites the file written for the first: each is
    written under a name that is not present in the destination directory
    at that moment, the first file keeps its content, and where the
    directory holds neither the candidate name nor its [_1] variant the
    second issue is written under the [_1] suffix. *)
Theorem write_issue_collision (issue1 issue2 : Issue) d c1 c2 w base_name filename :
  (generate_filename issue1 c1).2 = (base_name, filename) ->
  (generate_filename issue2 c2).2 = (base_name, filename) ->
  collision_outcome issue1 issue2 d c1 c2 w base_name filename.
Proof.
  intros G1 G2. unfold collision_outcome.
  destruct (write_issue_spec issue1 d c1 w) as (p1 & R1 & F1 & P1).
  set (w1 := {| files := <[p1 := document (generate_filename issue1 c1).1.1]> (files w);
                log := log w ++ [{| level := INFO; msg := "Writing %s"; arg := p1 |}] |}) in *.
  destruct (write_issue_spec issue2 d c2 w1) as (p2 & R2 & F2 & P2).
  set (w2 := {| files := <[p2 := document (generate_filename issue2 c2).1.1]> (files w1);
                log := log w1 ++ [{| level := INFO; msg := "Writing %s"; arg := p2 |}] |}) in *.
  exists p1, p2, w1, w2. split; [exact R1|]. split; [exact R2|].
  split; [done|]. split; [done|]. split; [done|]. split; [done|].
  assert (Hne : p1 <> p2).
  { intros <-. unfold w1 in F2. cbn [files] in F2.
    by rewrite lookup_insert_eq in F2. }
  split.
  { unfold w2, w1. cbn [files]. rewrite lookup_insert_ne; [|done].
    apply lookup_insert_eq. }
  intros Hfree Hfree1. rewrite G1 in P1. rewrite G2 in P2. cbn [fst snd] in P1, P2.
  assert (Hf : filename = base_name ++ ".md").
  { unfold generate_filename in G1. cbn in G1. by injection G1 as <- <-. }
  destruct P1 as [->|(Htaken & _)]; [|rewrite Hfree in Htaken; by destruct Htaken].
  split; [done|].
  destruct P2 as [->|(_ & k & Hk & -> & Hall)]; [by destruct Hne|].
  destruct (decide (k = 1)) as [->|Hk1]; [done|]. exfalso.
  assert (Ht : is_Some (files w1 !! suffixed d base_name 1)) by (apply Hall; lia).
  unfold w1 in Ht. cbn [files] in Ht.
  rewrite lookup_insert_ne, Hfree1 in Ht; [by destruct Ht|].
  rewrite Hf. intros E. symmetry in E. by apply suffixed_not_plain in E.
Qed.

Lemma write_issue_collision_witness :
  collision_outcome sample_issue sample_issue (path_div DEST_ROOT "monitoring")
    ∅ ∅ empty_world "001_INFRA_LEAK" "001_INFRA_LEAK.md".
Proof.
  apply (write_issue_collision sample_issue sample_issue
           (path_div DEST_ROOT "monitoring") ∅ ∅ empty_world);
    vm_compute; reflexivity.
Defined.

(** ** Sequencing *)

Lemma generate_filename_result issue counters :
  (generate_filename issue counters).1 =
    (set_sequence issue (default 0 (counters !! category issue) + 1),
     <[category issue := default 0 (counters !! category issue) + 1]> counters).
Proof. reflexivity. Qed.

Lemma shifted_range (n0 : Z) (m : nat) :
  map (fun k : nat => n0 + 1 + Z.of_nat k) (seq 1 m)
  = map (fun k : nat => n0 + Z.of_nat k) (seq 2 m).
Proof.
  rewrite <- (seq_shift m 1), map_map. apply map_ext. intros k. lia.
Qed.

Lemma write_all_spec issues counters w :
  Forall (fun i => is_Some (ensure_destination_dirs !! category i)) issues ->
  exists written counters' w',
    write_all ensure_destination_dirs issues counters w
      = (Return (written, counters'), w') /\
    Forall2 (fun i i' => i' = set_sequence i (sequence i')) issues written /\
    (forall c, sequences_of c written
               = map (fun k : nat => default 0 (counters !! c) + Z.of_nat k)
                     (seq 1 (count_of c issues))) /\
    (forall c, default 0 (counters' !! c)
               = default 0 (counters !! c) + Z.of_nat (count_of c issues)).
Proof.
  intros Hcat. revert counters w.
  induction Hcat as [|issue rest [d Hd] _ IH]; intros counters w.
  { exists [], counters, w. split; [done|]. split; [constructor|].
    split; intros c; cbn; [done|lia]. }
  cbn [write_all]. unfold bind. rewrite Hd. cbn [ret].
  destruct (write_issue_spec issue d counters w) as (p & -> & _ & _).
  rewrite generate_filename_result.
  set (n := default 0 (counters !! category issue) + 1).
  set (w1 := {| files := _; log := _ |}).
  destruct (IH (<[category issue := n]> counters) w1)
    as (written & counters' & w' & -> & Hrel & Hseq & Hcnt).
  exists (set_sequence issue n :: written), counters', w'.
  split; [done|]. split; [by constructor|].
  unfold sequences_of, count_of in *.
  split; intros c.
  - destruct (decide (category issue = c)) as [Hc|Hc].
    + rewrite filter_cons_True by done.
      rewrite (filter_cons_True _ issue) by done.
      cbn [map length seq]. rewrite Hseq. subst c.
      rewrite lookup_insert_eq. cbn [default]. f_equal; try (unfold n; lia).
      unfold n. apply shifted_range.
    + rewrite filter_cons_False by done.
      rewrite (filter_cons_False _ issue) by done.
      rewrite Hseq. by rewrite lookup_insert_ne.
  - rewrite Hcnt. destruct (decide (category issue = c)) as [Hc|Hc].
    + rewrite (filter_cons_True _ issue) by done. subst c.
      rewrite lookup_insert_eq. cbn [default length]. unfold n. unfold id. lia.
    + rewrite (filter_cons_False _ issue) by done. by rewrite lookup_insert_ne.
Qed.

Lemma recognized_destination i :
  recognized i -> is_Some (ensure_destination_dirs !! category i).
Proof. intros [[->| ->] _]; vm_compute; eauto. Qed.

(** ** The whole run *)

Lemma main_spec source_files w :
  match extract_all source_files w with
  | (Return issues, w0) =>
      exists written w',
        main (Some source_files) w = (Return written, w') /\
        Forall2 (fun i i' => i' = set_sequence i (sequence i')) issues written /\
        forall c, sequences_of c written = map Z.of_nat (seq 1 (count_of c issues))
  | (Raise e, w0) => main (Some source_files) w = (Raise e, w0)
  | (Timeout, _) => False
  end.
Proof.
  pose proof (extract_all_spec source_files w) as [_ Ho].
  unfold main, bind.
  destruct (extract_all source_files w) as [[issues| |] w0]; cbn [fst] in Ho; [|done|done].
  destruct (write_all_spec issues ∅ w0) as (written & counters' & w' & -> & Hrel & Hseq & _).
  { eapply Forall_impl; [exact Ho|]. apply recognized_destination. }
  exists written, w'. split; [done|]. split; [done|]. intros c.
  rewrite Hseq. apply map_ext. intros k. rewrite lookup_empty. cbn. lia.
Qed.

(** C1: in every run in which extraction succeeds, the sequence numbers
    given to the issues of a category, taken in processing order over all
    source documents, are exactly 1, 2, ..., N, where N is the number of
    issues of that category: no gap and no duplicate; nothing else of an
    issue is changed. *)
Theorem main_sequences source_files w issues w0 :
  extract_all source_files w = (Return issues, w0) ->
  exists written w',
    main (Some source_files) w = (Return written, w') /\
    Forall2 (fun i i' => i' = set_sequence i (sequence i')) issues written /\
    forall c, sequences_of c written = map Z.of_nat (seq 1 (count_of c issues)).
Proof.
  intros E. pose proof (main_spec source_files w) as H. by rewrite E in H.
Qed.

Lemma main_sequences_witness :
  exists issues w0,
    extract_all sample_files empty_world = (Return issues, w0) /\
    exists written w',
      main (Some sample_files) empty_world = (Return written, w') /\
      Forall2 (fun i i' => i' = set_sequence i (sequence i')) issues written /\
      forall c, sequences_of c written = map Z.of_nat (seq 1 (count_of c issues)).
Proof.
  eexists _, _. split; [vm_compute; reflexivity|].
  eapply (main_sequences sample_files empty_world). vm_compute. reflexivity.
Defined.

(** C4: a base name ending in [_MONITORING] is classified as category
    [monitoring] with the rest of the name as group, one ending in
    [_PERFORMANCE] as [performance] with the rest as group; for every
    other base name classification raises the [ValueError] that stands
    for the unrecognized-category condition, and a run writes no file for
    a document with such a name. *)
Theorem parse_group_classifies (file_stem : str) :
  (forall g, file_stem = g ++ "_MONITORING" ->
             parse_group file_stem = Return (g, "monitoring" : str)) /\
  (forall g, file_stem = g ++ "_PERFORMANCE" ->
             parse_group file_stem = Return (g, "performance" : str)) /\
  (endswith file_stem "_MONITORING" = false ->
   endswith file_stem "_PERFORMANCE" = false ->
   parse_group file_stem =
     Raise (ValueError ("Unable to determine category from filename: " ++ file_stem))
   /\ forall sp source_files w,
        path_stem sp = file_stem ->
        no_output_from sp w (main (Some source_files) w)).
Proof.
  split; [intros g ->; apply parse_group_monitoring|].
  split; [intros g ->; apply parse_group_performance|].
  intros Hm Hp. pose proof (parse_group_other file_stem Hm Hp) as Hraise.
  split; [done|]. intros sp source_files w Hstem. unfold no_output_from.
  pose proof (main_spec source_files w) as H.
  pose proof (extract_all_spec source_files w) as [Hf Ho].
  destruct (extract_all source_files w) as [[issues| |] w0]; cbn [fst snd] in *.
  - destruct H as (written & w' & -> & Hrel & _). cbn [fst].
    clear Hf. induction Hrel as [|i i' issues written Hi Hrel IH]; [constructor|].
    apply Forall_cons in Ho as [Hrec Ho]. constructor; [|by apply IH].
    intros Hsp. destruct Hrec as [_ (g & c & Hok)].
    rewrite Hi in Hsp. cbn in Hsp. rewrite Hsp, Hstem, Hraise in Hok. discriminate.
  - rewrite H. done.
  - done.
Qed.

Lemma parse_group_classifies_witness :
  parse_group "INFRA_MONITORING" = Return ("INFRA" : str, "monitoring" : str) /\
  parse_group "DB_PERFORMANCE" = Return ("DB" : str, "performance" : str) /\
  parse_group "INFRA_UNKNOWN" =
    Raise (ValueError "Unable to determine category from filename: INFRA_UNKNOWN") /\
  no_output_from (path_div SOURCE_DIR "INFRA_UNKNOWN.md") empty_world
    (main (Some (sample_files ++ [unknown_with_heading])) empty_world).
Proof.
  split; [apply (proj1 (parse_group_classifies "INFRA_MONITORING") "INFRA"); reflexivity|].
  split; [apply (proj1 (proj2 (parse_group_classifies "DB_PERFORMANCE")) "DB"); reflexivity|].
  destruct (proj2 (proj2 (parse_group_classifies "INFRA_UNKNOWN")) eq_refl eq_refl)
    as [Hraise Hnone].
  split; [exact Hraise|]. apply Hnone. reflexivity.
Defined.

(** C10: for a document whose text has no heading of the level-3 numeric
    form, extraction logs one warning and returns the empty list without
    calling the classifier: whatever the name of the document, also one
    with an unrecognized suffix, no exception is raised. *)
Theorem extract_issues_no_heading (sp : Path) (text : str) (w : World) :
  ISSUE_HEADING_PATTERN.finditer text = [] ->
  extract_issues sp text w =
    (Return [],
     {| files := files w;
        log := log w ++ [{| level := WARNING; msg := "No issues found in %s";
                            arg := sp |}] |}).
Proof. intros H. unfold extract_issues. by rewrite H. Qed.

Lemma extract_issues_no_heading_witness :
  ISSUE_HEADING_PATTERN.finditer unknown_without_heading.2 = [] /\
  parse_group (path_stem (path_div SOURCE_DIR unknown_without_heading.1)) =
    Raise (ValueError "Unable to determine category from filename: NOTES_UNKNOWN") /\
  extract_issues (path_div SOURCE_DIR unknown_without_heading.1)
    unknown_without_heading.2 empty_world =
    (Return [],
     {| files := ∅;
        log := [{| level := WARNING; msg := "No issues found in %s";
                   arg := path_div SOURCE_DIR unknown_without_heading.1 |}] |}).
Proof.
  split; [reflexivity|]. split; [reflexivity|].
  apply (extract_issues_no_heading _ _ empty_world). reflexivity.
Defined.

(** ** The body of an issue *)

(** What [make_body] builds: the empty element of [body_lines] never
    passes the [if line] filter, and an empty section does not either. *)
Lemma make_body_eq (title section : str) :
  make_body title section =
    ("## " : str) ++ title ++ [LF]
      ++ match section with [] => [] | _ => section ++ [LF] end.
Proof.
  unfold make_body.
  destruct section as [|c section]; cbn; repeat case_decide; try done; cbn.
  by rewrite <- app_assoc.
Qed.

(** C2: on the document [### 1. Leak / Body] the body that the extractor
    builds is the heading line followed at once by the span, [## Leak /
    Body] with a final newline: the blank line that the claim puts between
    the heading and the span is not there. *)
Theorem extract_issues_body_without_blank_line :
  (extract_issues (path_div SOURCE_DIR "INFRA_MONITORING.md")
     one_line_document empty_world).1
  = Return [ {| title := "Leak"; source_issue_index := 1; group := "INFRA";
                category := "monitoring"; sequence := 0;
                source_path := path_div SOURCE_DIR "INFRA_MONITORING.md";
                body := ("## Leak" : str) ++ [LF] ++ ("Body" : str) ++ [LF];
                priority := None; status := "pending";
                extra_frontmatter := [] |} ]
  /\ make_body "Leak" "Body" <> ("## Leak" : str) ++ [LF; LF] ++ ("Body" : str)
  /\ make_body "Leak" "Body" <> ("## Leak" : str) ++ [LF; LF] ++ ("Body" : str) ++ [LF].
Proof. split; [reflexivity|]. split; discriminate. Qed.

(** C3: the pattern is applied with [re.MULTILINE] by [sub], so a rule in
    the middle of a span is deleted as well: the section [first / --- /
    second] becomes [first / second]; and of a line of four hyphens at the
    end of a span only three are deleted. *)
Theorem trim_section_removes_inner_rule :
  trim_section (("first" : str) ++ [LF] ++ ("---" : str) ++ [LF] ++ ("second" : str))
    = ("first" : str) ++ [LF] ++ ("second" : str)
  /\ body <$> (match (extract_issues (path_div SOURCE_DIR "INFRA_MONITORING.md")
                        rule_inside_document empty_world).1 with
               | Return issues => issues
               | _ => []
               end)
     = [("## Leak" : str) ++ [LF] ++ ("first" : str) ++ [LF] ++ ("second" : str) ++ [LF]]
  /\ trim_section (("a" : str) ++ [LF] ++ ("----" : str)) = ("a" : str) ++ [LF] ++ ("-" : str).
Proof. split; [reflexivity|]. split; reflexivity. Qed.

(** ** Heading matches and spans *)

Lemma take_while_length (p : ascii -> bool) (s : str) :
  (length (take_while p s) + length (drop_while p s) = length s)%nat.
Proof. by rewrite <- length_app, take_drop_while. Qed.

Lemma strip_prefix_Some (p s r : str) : strip_prefix p s = Some r <-> s = p ++ r.
Proof.
  revert s. induction p as [|a p IH]; intros s; cbn.
  { split; [by intros [= ->]|by intros ->]. }
  destruct s as [|b s]; [done|]. case_bool_decide as E.
  - subst b. rewrite IH. split; [by intros ->|by intros [= ->]].
  - split; [done|]. intros [= -> _]. done.
Qed.

Lemma match_here_length (s : str) len g1 g2 :
  ISSUE_HEADING_PATTERN.match_here s = Some (len, g1, g2) ->
  (1 <= len <= length s)%nat.
Proof.
  unfold ISSUE_HEADING_PATTERN.match_here.
  destruct (strip_prefix "###" s) as [r1|] eqn:E1; [|done].
  destruct (strip_prefix "." _) as [r4|] eqn:E4; [|done].
  case_match; [|done]. intros [= <- _ _].
  apply strip_prefix_Some in E1, E4. subst s.
  pose proof (take_while_length is_space r1) as Hw1.
  pose proof (take_while_length is_digit (drop_while is_space r1)) as Hd.
  pose proof (take_while_length is_space r4) as Hw2.
  pose proof (take_while_length (fun c => negb (is_newline c))
                (drop_while is_space r4)) as Ht.
  rewrite E4 in Hd. cbn [length app String.list_ascii_of_string] in *. lia.
Qed.

Lemma in_order_le lo hi ms : in_order lo hi ms -> (lo <= hi)%nat.
Proof.
  revert lo. induction ms as [|m ms IH]; intros lo; cbn; [done|].
  intros (H1 & H2 & H3). apply IH in H3. lia.
Qed.

Lemma in_order_weaken lo lo' hi ms :
  (lo' <= lo)%nat -> in_order lo hi ms -> in_order lo' hi ms.
Proof. destruct ms as [|m ms]; cbn; [lia|]. intros ? (? & ? & ?). repeat split; [lia|lia|done]. Qed.

Lemma finditer_from_in_order pos bol skip (s : str) :
  (skip <= length s)%nat ->
  in_order (pos + skip) (pos + length s)
    (ISSUE_HEADING_PATTERN.finditer_from pos bol skip s).
Proof.
  revert pos bol skip. induction s as [|c s IH]; intros pos bol skip Hskip.
  { cbn in *. lia. }
  cbn [ISSUE_HEADING_PATTERN.finditer_from length].
  destruct skip as [|k].
  - destruct (if bol then ISSUE_HEADING_PATTERN.match_here (c :: s) else None)
      as [[[len g1] g2]|] eqn:Em.
    + assert (Hlen : (1 <= len <= length (c :: s))%nat).
      { destruct bol; [|done]. eapply match_here_length, Em. }
      cbn [length] in Hlen. cbn [in_order m_start m_end].
      split; [lia|]. split; [lia|].
      replace (pos + len)%nat with (S pos + (len - 1))%nat by lia.
      replace (pos + S (length s))%nat with (S pos + length s)%nat by lia.
      apply IH. lia.
    + eapply (in_order_weaken (S pos + 0)); [lia|].
      replace (pos + S (length s))%nat with (S pos + length s)%nat by lia.
      apply IH. lia.
  - replace (pos + S k)%nat with (S pos + k)%nat by lia.
    replace (pos + S (length s))%nat with (S pos + length s)%nat by lia.
    apply IH. cbn in Hskip. lia.
Qed.

Lemma sections_cons (text : str) m ms :
  sections text (m :: ms) =
    (m, slice text (m_end m) (first_start text ms)) :: sections text ms.
Proof.
  unfold sections. rewrite imap_cons. f_equal; try (by apply imap_ext).
  unfold first_start. by destruct ms.
Qed.

Lemma slice_drop (t : str) (a b : nat) :
  (a <= b)%nat -> drop a t = slice t a b ++ drop b t.
Proof.
  intros H. unfold slice.
  replace b with (a + (b - a))%nat at 2 by lia.
  rewrite <- drop_drop. symmetry. apply take_drop.
Qed.

Lemma sections_cover (text : str) ms lo :
  in_order lo (length text) ms ->
  drop lo text =
    slice text lo (first_start text ms)
      ++ concat (map (fun ms => heading_text text ms.1 ++ ms.2) (sections text ms)).
Proof.
  revert lo. induction ms as [|m ms IH]; intros lo; cbn [in_order].
  - intros _. cbn. rewrite app_nil_r. unfold slice.
    symmetry. apply take_ge. rewrite length_drop. lia.
  - intros (H1 & H2 & H3). rewrite sections_cons. cbn [map concat fst snd first_start].
    rewrite (slice_drop text lo (m_start m) H1). f_equal.
    rewrite (slice_drop text (m_start m) (m_end m) H2).
    unfold heading_text. rewrite <- app_assoc. f_equal.
    rewrite (IH _ H3). done.
Qed.

(** C8: the raw span of every issue runs from the end of its heading
    match to the start of the next match, or to the end of the text for
    the last one; the matches lie one after the other, so the text is the
    part in front of the first heading followed, for every issue in
    order, by its heading and its raw span: nothing from the first
    heading on is dropped.  The body of every extracted issue is built
    from these spans. *)
Theorem sections_partition (text : str) :
  (forall idx m raw,
      sections text (ISSUE_HEADING_PATTERN.finditer text) !! idx = Some (m, raw) ->
      ISSUE_HEADING_PATTERN.finditer text !! idx = Some m /\
      raw = slice text (m_end m)
              (match ISSUE_HEADING_PATTERN.finditer text !! S idx with
               | Some next => m_start next
               | None => length text
               end)) /\
  in_order 0 (length text) (ISSUE_HEADING_PATTERN.finditer text) /\
  text = slice text 0 (first_start text (ISSUE_HEADING_PATTERN.finditer text))
           ++ concat (map (fun ms => heading_text text ms.1 ++ ms.2)
                          (sections text (ISSUE_HEADING_PATTERN.finditer text))) /\
  (forall sp w issues,
      (extract_issues sp text w).1 = Return issues ->
      map body issues =
        map (fun ms => make_body (strip (group2 ms.1)) (trim_section ms.2))
            (sections text (ISSUE_HEADING_PATTERN.finditer text))).
Proof.
  assert (Hord : in_order 0 (length text) (ISSUE_HEADING_PATTERN.finditer text)).
  { apply (finditer_from_in_order 0 true 0 text). lia. }
  split; [|split; [done|split]].
  - intros idx m raw H. unfold sections in H.
    rewrite list_lookup_imap in H.
    destruct (ISSUE_HEADING_PATTERN.finditer text !! idx) as [m'|]; [|done].
    cbn in H. by injection H as <- <-.
  - exact (sections_cover text _ 0 Hord).
  - intros sp w issues E.
    apply extract_issues_Return in E as [[-> ->]|(_ & g & c & _ & _ & ->)]; [done|].
    by rewrite map_map.
Qed.

Lemma sections_partition_witness :
  sections rule_inside_document (ISSUE_HEADING_PATTERN.finditer rule_inside_document)
    !! 0%nat
  = Some ({| m_start := 0; m_end := 11; group1 := "1"; group2 := "Leak" |},
          [LF] ++ ("first" : str) ++ [LF] ++ ("---" : str) ++ [LF] ++ ("second" : str))
  /\ ISSUE_HEADING_PATTERN.finditer rule_inside_document !! 0%nat
     = Some {| m_start := 0; m_end := 11; group1 := "1"; group2 := "Leak" |}
  /\ [LF] ++ ("first" : str) ++ [LF] ++ ("---" : str) ++ [LF] ++ ("second" : str)
     = slice rule_inside_document 11 (length rule_inside_document).
Proof.
  split; [reflexivity|].
  exact (proj1 (sections_partition rule_inside_document) 0%nat _ _ eq_refl).
Defined.

(** ** The priority field *)

Lemma take_while_app_all (p : ascii -> bool) (a b : str) :
  Forall (fun c => p c = true) a -> take_while p (a ++ b) = a ++ take_while p b.
Proof.
  induction 1 as [|c a Hc _ IH]; [done|]. cbn. by rewrite Hc, IH.
Qed.

Lemma take_while_prefix_Forall (p : ascii -> bool) (j : nat) (r : str) :
  (j <= length (take_while p r))%nat -> Forall (fun c => p c = true) (take j r).
Proof.
  intros Hj. rewrite <- (take_drop_while p r), take_app_le by done.
  apply Forall_take, take_while_Forall.
Qed.

Lemma not_newline_true c : PRIORITY_PATTERN.not_newline c = true <-> c <> LF.
Proof.
  unfold PRIORITY_PATTERN.not_newline, is_newline.
  case_bool_decide; cbn; split; congruence.
Qed.

Lemma line_text_drop (r ws t : str) :
  line_text r ws t ->
  (length ws <= length (take_while is_space r))%nat /\
  take_while PRIORITY_PATTERN.not_newline (drop (length ws) r) = t /\ t <> [].
Proof.
  intros (post & -> & Hws & Hne & Ht & Hpost). split; [|split; [|done]].
  - rewrite take_while_app_all, length_app by done. lia.
  - rewrite drop_app_length, take_while_app_all.
    + destruct Hpost as [->|[q ->]]; cbn; by rewrite app_nil_r.
    + eapply Forall_impl; [exact Ht|]. intros c. by rewrite not_newline_true.
Qed.

Lemma drop_line_text (r t : str) (j : nat) :
  (j <= length (take_while is_space r))%nat ->
  take_while PRIORITY_PATTERN.not_newline (drop j r) = t -> t <> [] ->
  line_text r (take j r) t.
Proof.
  intros Hj Ht Hne.
  exists (drop_while PRIORITY_PATTERN.not_newline (drop j r)).
  split; [|split; [|split; [|split]]].
  - by rewrite <- Ht, take_drop_while, take_drop.
  - by apply take_while_prefix_Forall.
  - done.
  - rewrite <- Ht. eapply Forall_impl; [apply take_while_Forall|].
    intros c. by rewrite not_newline_true.
  - destruct (drop_while _ _) as [|c q] eqn:E; [by left|right].
    apply drop_while_head in E. exists q. f_equal.
    destruct (decide (c = LF)) as [|Hc]; [done|].
    apply not_newline_true in Hc. congruence.
Qed.

Lemma ws_then_text_Some (k : nat) (r cap : str) :
  PRIORITY_PATTERN.ws_then_text k r = Some cap ->
  exists j, (j <= k)%nat /\
    take_while PRIORITY_PATTERN.not_newline (drop j r) = cap /\ cap <> [] /\
    forall j', (j < j' <= k)%nat ->
               take_while PRIORITY_PATTERN.not_newline (drop j' r) = [].
Proof.
  induction k as [|k IH]; cbn;
    destruct (take_while _ (drop _ r)) as [|c q] eqn:E.
  - done.
  - intros [= <-]. exists 0%nat. repeat split; [lia|done|done|lia].
  - intros H. destruct (IH H) as (j & Hj & Hc & Hne & Hup).
    exists j. repeat split; [lia|done|done|].
    intros j' Hj'. destruct (decide (j' = S k)) as [->|]; [done|].
    apply Hup. lia.
  - intros [= <-]. exists (S k). repeat split; [lia|done|done|lia].
Qed.

Lemma ws_then_text_None (k : nat) (r : str) :
  PRIORITY_PATTERN.ws_then_text k r = None ->
  forall j, (j <= k)%nat ->
            take_while PRIORITY_PATTERN.not_newline (drop j r) = [].
Proof.
  induction k as [|k IH]; cbn;
    destruct (take_while _ (drop _ r)) as [|c q] eqn:E; try done.
  - intros _ j Hj. by replace j with 0%nat by lia.
  - intros H j Hj. destruct (decide (j = S k)) as [->|]; [done|].
    apply IH; [done|lia].
Qed.

Lemma label_here_Some (s r : str) :
  PRIORITY_PATTERN.label_here s = Some r <-> exists l, is_label l /\ s = l ++ r.
Proof.
  unfold PRIORITY_PATTERN.label_here, is_label. split.
  - destruct (strip_prefix "**Priority:**"%string s) as [r'|] eqn:E.
    + intros [= ->]. apply strip_prefix_Some in E. eauto.
    + intros E'. apply strip_prefix_Some in E'. eauto.
  - intros (l & [->| ->] & ->).
    + by rewrite (proj2 (strip_prefix_Some _ _ r) eq_refl).
    + cbn. exact (proj2 (strip_prefix_Some "**Severity:**"%string _ r) eq_refl).
Qed.

(** One attempt of the pattern at the front of [s] succeeds with group 1
    equal to [t] exactly when [s] starts with a field of text [t]. *)
Lemma match_here_field (s t : str) :
  PRIORITY_PATTERN.match_here s = Some t <-> priority_field s [] t.
Proof.
  unfold PRIORITY_PATTERN.match_here, priority_field. split.
  - destruct (PRIORITY_PATTERN.label_here s) as [r|] eqn:E; [|done].
    apply label_here_Some in E as (l & Hl & ->). intros H.
    apply ws_then_text_Some in H as (j & Hj & Hc & Hne & Hup).
    assert (Hlen : length (take j r) = j).
    { rewrite length_take. pose proof (take_while_length is_space r). lia. }
    exists l, r, (take j r). repeat split; [done|by apply drop_line_text|].
    intros ws' t' H'. apply line_text_drop in H' as (Hk & Ht' & Hne').
    rewrite Hlen. destruct (decide (length ws' <= j)%nat); [done|].
    rewrite Hup in Ht' by lia. congruence.
  - intros (l & r & ws & Hs & Hl & Hline & Hmax). cbn in Hs. subst s.
    rewrite (proj2 (label_here_Some (l ++ r) r)) by eauto.
    pose proof (line_text_drop _ _ _ Hline) as (Hk & Ht & Hne).
    destruct (PRIORITY_PATTERN.ws_then_text _ r) as [cap|] eqn:E.
    + apply ws_then_text_Some in E as (j & Hj & Hc & Hne' & Hup).
      assert (Hlen : length (take j r) = j).
      { rewrite length_take. pose proof (take_while_length is_space r). lia. }
      pose proof (Hmax _ _ (drop_line_text _ _ _ Hj Hc Hne')) as Hle.
      rewrite Hlen in Hle.
      destruct (decide (j = length ws)) as [->|]; [congruence|].
      rewrite Hup in Ht by lia. congruence.
    + rewrite (ws_then_text_None _ _ E) in Ht by done. congruence.
Qed.

Lemma priority_field_suffix (pre s t : str) :
  priority_field (pre ++ s) pre t <-> priority_field s [] t.
Proof.
  unfold priority_field. split.
  - intros (l & r & ws & H & Hr). apply app_inv_head in H. by exists l, r, ws.
  - intros (l & r & ws & H & Hr). cbn in H. subst s. by exists l, r, ws.
Qed.

Lemma search_first (pre s cap : str) :
  PRIORITY_PATTERN.match_here s = Some cap ->
  (forall pre' s', pre ++ s = pre' ++ s' -> (length pre' < length pre)%nat ->
                   PRIORITY_PATTERN.match_here s' = None) ->
  PRIORITY_PATTERN.search (pre ++ s) = Some cap.
Proof.
  intros Hs. induction pre as [|c pre IH]; intros Hfirst.
  - destruct s; cbn in *; by rewrite Hs.
  - assert (H0 : PRIORITY_PATTERN.match_here ((c :: pre) ++ s) = None).
    { apply (Hfirst [] _ eq_refl). cbn. lia. }
    cbn [PRIORITY_PATTERN.search app] in *. rewrite H0. apply IH.
    intros pre' s' E Hlt. apply (Hfirst (c :: pre')); cbn; [by rewrite E|lia].
Qed.

Lemma search_none (span : str) :
  (forall pre s, span = pre ++ s -> PRIORITY_PATTERN.match_here s = None) ->
  PRIORITY_PATTERN.search span = None.
Proof.
  induction span as [|c span IH]; intros H; cbn [PRIORITY_PATTERN.search].
  - by rewrite (H [] [] eq_refl).
  - rewrite (H [] _ eq_refl). apply IH. intros pre s ->.
    exact (H (c :: pre) s eq_refl).
Qed.

Lemma extract_issues_priority sp text w issues :
  (extract_issues sp text w).1 = Return issues ->
  map priority issues =
    map (fun ms => priority_of (trim_section ms.2))
        (sections text (ISSUE_HEADING_PATTERN.finditer text)).
Proof.
  intros E.
  apply extract_issues_Return in E as [[-> ->]|(_ & g & c & _ & _ & ->)]; [done|].
  by rewrite map_map.
Qed.

Lemma same_line_field_at (span pre t : str) :
  same_line_field span pre t -> same_line_text_at span (length pre) = true.
Proof.
  intros (l & r & -> & Hl & post & Hr & _ & Hne & Hnl & _).
  cbn in Hr. subst r. unfold same_line_text_at.
  rewrite drop_app_length.
  rewrite (proj2 (label_here_Some (l ++ t ++ post) (t ++ post))) by eauto.
  destruct t as [|c t]; [done|]. cbn.
  apply Forall_cons in Hnl as [Hc _].
  unfold is_newline. by rewrite bool_decide_eq_false_2.
Qed.

(** C9: the pattern reads group 1 to the end of a line, but the white
    space in front of it runs over line ends.  A label that stands alone
    on its line therefore takes the next line that has text as the
    priority: in the span [**Priority:** / High] no label is followed on
    its line by text, yet the priority is [High]; in the span
    [**Priority:** / **Status:** open] the priority is the line
    [**Status:** open]; and in the span [**Severity:** / note /
    **Priority:** High] the one field of the span, [**Priority:** High],
    is passed over and the priority is [note]. *)
Theorem priority_crosses_line_break :
  (trim_section label_alone_span = label_alone_span /\
   (forall pre t, ~ same_line_field label_alone_span pre t) /\
   priority_of label_alone_span = Some ("High" : str)) /\
  (trim_section label_then_status_span = label_then_status_span /\
   (forall pre t, ~ same_line_field label_then_status_span pre t) /\
   priority_of label_then_status_span = Some ("**Status:** open" : str) /\
   priority <$> (match (extract_issues (path_div SOURCE_DIR "INFRA_MONITORING.md")
                          label_then_status_document empty_world).1 with
                 | Return issues => issues
                 | _ => []
                 end)
     = [Some ("**Status:** open" : str)]) /\
  (trim_section severity_then_priority_span = severity_then_priority_span /\
   same_line_field severity_then_priority_span
     (("**Severity:**" : str) ++ [LF] ++ ("note" : str) ++ [LF]) (" High" : str) /\
   (forall pre t,
       same_line_field severity_then_priority_span pre t ->
       pre = ("**Severity:**" : str) ++ [LF] ++ ("note" : str) ++ [LF] /\
       t = (" High" : str)) /\
   priority_of severity_then_priority_span = Some ("note" : str) /\
   ~ priority_rule same_line_field severity_then_priority_span).
Proof.
  assert (Hno : forall span,
             forallb (fun n => negb (same_line_text_at span n))
                     (seq 0 (S (length span))) = true ->
             forall pre t, ~ same_line_field span pre t).
  { intros span Hall pre t Hf.
    assert (Hlen : (length pre < S (length span))%nat).
    { destruct Hf as (l & r & -> & _). rewrite length_app. lia. }
    apply same_line_field_at in Hf.
    rewrite forallb_forall in Hall.
    specialize (Hall (length pre)). rewrite Hf in Hall.
    discriminate Hall. apply in_seq. lia. }
  assert (Hfield : same_line_field severity_then_priority_span
            (("**Severity:**" : str) ++ [LF] ++ ("note" : str) ++ [LF])
            (" High" : str)).
  { exists ("**Priority:**" : str), (" High" : str).
    split; [reflexivity|]. split; [by left|].
    exists []. split; [reflexivity|]. split; [constructor|].
    split; [discriminate|]. split; [|by left].
    repeat constructor; discriminate. }
  assert (Honly : forall pre t,
             same_line_field severity_then_priority_span pre t ->
             pre = ("**Severity:**" : str) ++ [LF] ++ ("note" : str) ++ [LF] /\
             t = (" High" : str)).
  { intros pre t Hf. pose proof (same_line_field_at _ _ _ Hf) as Hat.
    destruct Hf as (l & r & H & Hl & post & Hr & _ & _ & Hnl & Hpost).
    cbn in Hr. subst r.
    assert (Hpre : length pre = 19%nat).
    { assert (Hlen : (length pre <= 37)%nat).
      { apply (f_equal length) in H. rewrite !length_app in H.
        change (length severity_then_priority_span) with 37%nat in H. lia. }
      destruct (decide (length pre = 19%nat)) as [E|E]; [exact E|].
      exfalso. revert Hat Hlen E. generalize (length pre) as n. intros n.
      do 38 (destruct n as [|n]; [by vm_compute|]). lia. }
    assert (Epre : pre = take 19 severity_then_priority_span).
    { rewrite H, <- Hpre. by rewrite take_app_length. }
    assert (Erest : l ++ t ++ post = drop 19 severity_then_priority_span).
    { rewrite H, <- Hpre. by rewrite drop_app_length. }
    split; [exact Epre|].
    assert (El : t ++ post = (" High" : str)).
    { destruct Hl as [-> | ->]; vm_compute in Erest.
      - by injection Erest.
      - discriminate Erest. }
    destruct Hpost as [-> | [p ->]].
    - by rewrite app_nil_r in El.
    - exfalso.
      assert (Hall : Forall (fun c => c <> LF) (" High" : str))
        by (repeat constructor; discriminate).
      rewrite <- El in Hall. apply Forall_app in Hall as [_ Hall].
      by apply Forall_cons in Hall as [Hc _]. }
  split; [|split].
  - split; [reflexivity|]. split; [|reflexivity]. by apply Hno.
  - split; [reflexivity|]. split; [by apply Hno|]. split; reflexivity.
  - split; [reflexivity|]. split; [exact Hfield|]. split; [exact Honly|].
    split; [reflexivity|].
    intros [H _]. specialize (H _ _ Hfield).
    assert (E : priority_of severity_then_priority_span = Some (strip (" High" : str))).
    { apply H. intros pre' t' Hf'. by destruct (Honly _ _ Hf') as [-> _]. }
    vm_compute in E. discriminate E.
Qed.

(** What the pattern does read: the white space that it passes over after
    the label may contain line breaks, and as much of it as possible is
    passed over; with the field read that way, the priority of an issue is
    the trimmed text of the first field of its trimmed span, and it is
    absent when the span has no field. *)
Lemma priority_first_field :
  (forall span, priority_rule priority_field span) /\
  (forall sp text w issues,
      (extract_issues sp text w).1 = Return issues ->
      map priority issues =
        map (fun ms => priority_of (trim_section ms.2))
            (sections text (ISSUE_HEADING_PATTERN.finditer text))).
Proof.
  split; [|exact extract_issues_priority].
  intros span. split.
  - intros pre t Hf Hmin.
    assert (Hs : exists s, span = pre ++ s) by (destruct Hf as (l & r & _ & -> & _); eauto).
    destruct Hs as [s ->]. apply priority_field_suffix, match_here_field in Hf.
    unfold priority_of. rewrite (search_first pre s t); [done|done|].
    intros pre' s' E Hlt.
    destruct (PRIORITY_PATTERN.match_here s') as [t'|] eqn:E'; [|done].
    apply match_here_field, (priority_field_suffix pre') in E'.
    rewrite <- E in E'. apply Hmin in E'. lia.
  - intros Hno. unfold priority_of. rewrite search_none; [done|].
    intros pre s ->.
    destruct (PRIORITY_PATTERN.match_here s) as [t|] eqn:E; [|done].
    exfalso. apply (Hno pre t). by apply priority_field_suffix, match_here_field.
Qed.

(** ** Reading a record back *)

Lemma escape_quotes_head (s t : str) : escape_quotes s <> DQUOTE :: t.
Proof.
  destruct s as [|c s]; cbn; [done|].
  case_bool_decide; intros E; [|congruence].
  assert (E' : BACKSLASH = DQUOTE) by congruence. discriminate E'.
Qed.

Lemma unescape_escape (s : str) : unescape_quotes (escape_quotes s) = s.
Proof.
  induction s as [|c s IH]; [done|]. cbn [escape_quotes].
  case_bool_decide as Hc.
  - subst c. cbn. by rewrite IH.
  - cbn [unescape_quotes]. pose proof (escape_quotes_head s) as Hh.
    destruct (escape_quotes s) as [|d e] eqn:E.
    + cbn in IH. by subst s.
    + destruct (bool_decide (c = BACKSLASH) && bool_decide (d = DQUOTE)) eqn:Eb;
        [|by rewrite IH].
      apply andb_prop in Eb as [_ Hd]. apply bool_decide_eq_true in Hd.
      subst d. by destruct (Hh e).
Qed.

Lemma escape_quotes_single_line (s : str) : LF ∉ s -> LF ∉ escape_quotes s.
Proof.
  induction s as [|c s IH]; [done|]. cbn. intros [Hc Hs]%not_elem_of_cons.
  case_bool_decide; repeat (apply not_elem_of_cons; split); auto; done.
Qed.

Lemma frontmatter_line_single_line (kv : str * str) :
  LF ∉ kv.1 -> LF ∉ kv.2 -> LF ∉ frontmatter_line kv.
Proof.
  intros Hk Hv. unfold frontmatter_line.
  pose proof (escape_quotes_single_line _ Hv) as He.
  rewrite !not_elem_of_app. repeat split; try done;
    repeat (apply not_elem_of_cons; split; [done|]); apply not_elem_of_nil.
Qed.

Lemma frontmatter_line_not_rule (kv : str * str) :
  frontmatter_line kv <> ("---" : str).
Proof.
  unfold frontmatter_line. rewrite !app_assoc.
  change ("---" : str) with (("--" : str) ++ ["-"%char]).
  intros E. apply app_inj_tail in E as [_ E]. discriminate E.
Qed.

Lemma field_value_line (k v : str) :
  field_value k (frontmatter_line (k, v)) = Some v.
Proof.
  unfold field_value, frontmatter_line. cbn [fst snd].
  rewrite (proj2 (strip_prefix_Some (k ++ ": " ++ [DQUOTE]) _
                    (escape_quotes v ++ [DQUOTE]))).
  - rewrite rev_app_distr. cbn. by rewrite rev_involutive, unescape_escape.
  - by rewrite <- !app_assoc.
Qed.

Lemma split_lines_line (l rest : str) :
  LF ∉ l -> split_lines (l ++ LF :: rest) = l :: split_lines rest.
Proof.
  induction l as [|c l IH]; cbn [app split_lines].
  - intros _. by rewrite bool_decide_eq_true_2.
  - intros [Hc Hl]%not_elem_of_cons.
    rewrite bool_decide_eq_false_2 by congruence. by rewrite IH.
Qed.

Lemma split_lines_block (ls : list str) (rest : str) :
  Forall (fun l => LF ∉ l) ls ->
  split_lines (concat (map (fun l => l ++ [LF]) ls) ++ rest)
  = ls ++ split_lines rest.
Proof.
  induction 1 as [|l ls Hl _ IH]; [done|]. cbn [map concat].
  rewrite <- !app_assoc. cbn [app]. by rewrite split_lines_line, IH.
Qed.

Lemma join_block (ls : list str) (final rest : str) :
  join [LF] (ls ++ [final]) ++ rest
  = concat (map (fun l => l ++ [LF]) ls) ++ final ++ rest.
Proof.
  induction ls as [|l ls IH]; [done|]. cbn [app map concat join].
  destruct (ls ++ [final]) as [|x xs] eqn:E; [by destruct ls|].
  rewrite <- !app_assoc. cbn [app]. by rewrite IH.
Qed.

Lemma until_rule_block (ls rest : list str) :
  Forall (fun l => l <> ("---" : str)) ls ->
  until_rule (ls ++ ("---" : str) :: rest) = Some ls.
Proof.
  induction 1 as [|l ls Hl _ IH]; cbn [app until_rule].
  - by rewrite bool_decide_eq_true_2.
  - by rewrite bool_decide_eq_false_2, IH.
Qed.

Lemma metadata_block_document (issue : Issue) :
  Forall (fun kv => (LF ∉ kv.1) /\ (LF ∉ kv.2)) (frontmatter_fields issue) ->
  metadata_block (document issue)
  = Some (map frontmatter_line (frontmatter_fields issue)).
Proof.
  intros Hf. unfold metadata_block, document, frontmatter_lines.
  assert (Hr : LF ∉ ("---" : str)).
  { repeat (apply not_elem_of_cons; split; [done|]). apply not_elem_of_nil. }
  rewrite (app_assoc ["---" : str]), join_block. cbn [app map concat].
  rewrite <- !app_assoc. cbn [app].
  rewrite (split_lines_line ("---" : str)) by done.
  rewrite bool_decide_eq_true_2 by done.
  rewrite split_lines_block.
  - rewrite (split_lines_line ("---" : str)) by done.
    apply until_rule_block, Forall_forall. intros l Hl.
    apply list_elem_of_In, in_map_iff in Hl as (kv & <- & _).
    apply frontmatter_line_not_rule.
  - apply Forall_forall. intros l Hl.
    apply list_elem_of_In, in_map_iff in Hl as (kv & <- & Hkv).
    apply list_elem_of_In in Hkv.
    rewrite Forall_forall in Hf. destruct (Hf _ Hkv).
    by apply frontmatter_line_single_line.
Qed.

Lemma dict_set_lookup (k v : str) (d : list (str * str)) (i : nat) k' v' :
  d !! i = Some (k', v') ->
  exists v'', dict_set k v d !! i = Some (k', v'') /\ (k <> k' -> v'' = v').
Proof.
  revert i. induction d as [|[k0 v0] d IH]; intros i; [done|].
  cbn [dict_set]. case_bool_decide as Hk.
  - destruct i as [|i]; cbn.
    + intros ?. simplify_eq. exists v. by split.
    + intros H. exists v'. by split.
  - destruct i as [|i]; cbn.
    + intros ?. simplify_eq. exists v'. by split.
    + apply IH.
Qed.

Lemma dict_update_lookup (extra d : list (str * str)) (i : nat) k' v' :
  d !! i = Some (k', v') ->
  exists v'', dict_update d extra !! i = Some (k', v'') /\
              (k' ∉ extra.*1 -> v'' = v').
Proof.
  revert d v'. induction extra as [|[k v] extra IH]; intros d v' H.
  { exists v'. by split. }
  destruct (dict_set_lookup k v d i k' v' H) as (v1 & H1 & E1).
  destruct (IH _ _ H1) as (v2 & H2 & E2).
  exists v2. split; [exact H2|].
  cbn. intros [Hk Hx]%not_elem_of_cons. rewrite E2 by done. apply E1. congruence.
Qed.

Lemma round_trip_key_free (k : str) (extra : list (str * str)) :
  k ∈ round_trip_keys ->
  Forall (fun kv => kv.1 ∉ round_trip_keys) extra ->
  k ∉ extra.*1.
Proof.
  intros Hk Hx Hin. apply list_elem_of_In, in_map_iff in Hin as (kv & <- & Hkv).
  rewrite Forall_forall in Hx. by apply (Hx kv); [apply list_elem_of_In|].
Qed.

Lemma frontmatter_fields_shape (issue : Issue) :
  Forall (fun kv => kv.1 ∉ round_trip_keys) (extra_frontmatter issue) ->
  exists g st so rest,
    frontmatter_fields issue =
      [("title" : str, title issue); ("group" : str, g);
       ("category" : str, category issue);
       ("priority" : str, default [] (priority issue));
       ("status" : str, st); ("source" : str, so);
       ("issue_index" : str, str_of_int (source_issue_index issue));
       ("sequence" : str, str_of_int (sequence issue))] ++ rest.
Proof.
  intros Hkeys. unfold frontmatter_fields.
  pose proof (fun k Hk => round_trip_key_free k _ Hk Hkeys) as Hfree.
  set (base := [_; _; _; _; _; _; _; _]).
  destruct (dict_update_lookup (extra_frontmatter issue) base 0 _ _ eq_refl)
    as (v0 & H0 & E0).
  destruct (dict_update_lookup (extra_frontmatter issue) base 1 _ _ eq_refl)
    as (v1 & H1 & _).
  destruct (dict_update_lookup (extra_frontmatter issue) base 2 _ _ eq_refl)
    as (v2 & H2 & E2).
  destruct (dict_update_lookup (extra_frontmatter issue) base 3 _ _ eq_refl)
    as (v3 & H3 & E3).
  destruct (dict_update_lookup (extra_frontmatter issue) base 4 _ _ eq_refl)
    as (v4 & H4 & _).
  destruct (dict_update_lookup (extra_frontmatter issue) base 5 _ _ eq_refl)
    as (v5 & H5 & _).
  destruct (dict_update_lookup (extra_frontmatter issue) base 6 _ _ eq_refl)
    as (v6 & H6 & E6).
  destruct (dict_update_lookup (extra_frontmatter issue) base 7 _ _ eq_refl)
    as (v7 & H7 & E7).
  rewrite E0 in H0 by (apply Hfree; unfold round_trip_keys; repeat constructor).
  rewrite E2 in H2 by (apply Hfree; unfold round_trip_keys; repeat constructor).
  rewrite E3 in H3 by (apply Hfree; unfold round_trip_keys; repeat constructor).
  rewrite E6 in H6 by (apply Hfree; unfold round_trip_keys; repeat constructor).
  rewrite E7 in H7 by (apply Hfree; unfold round_trip_keys; repeat constructor).
  clear E0 E2 E3 E6 E7.
  destruct (dict_update base _) as [|e0 [|e1 [|e2 [|e3 [|e4 [|e5 [|e6 [|e7 rest]]]]]]]];
    try done.
  cbn in H0, H1, H2, H3, H4, H5, H6, H7.
  injection H0 as ->. injection H1 as ->. injection H2 as ->.
  injection H3 as ->. injection H4 as ->. injection H5 as ->.
  injection H6 as ->. injection H7 as ->.
  by exists v1, v4, v5, rest.
Qed.

Lemma read_field_here (k v : str) (ls : list str) :
  read_field k (frontmatter_line (k, v) :: ls) = Some v.
Proof. unfold read_field. cbn [omap list_omap]. by rewrite field_value_line. Qed.

Lemma read_field_skip (k l : str) (ls : list str) :
  field_value k l = None -> read_field k (l :: ls) = read_field k ls.
Proof. unfold read_field. cbn [omap list_omap]. by intros ->. Qed.

(** C7, as stated, fails: [fields.update] lets a caller-supplied field
    replace a value of the record, so the issue titled [A] whose extra
    fields give [title] the value [B] is read back with the title [B]. *)
Lemma round_trip_counterexample :
  title retitled_issue = ("A" : str) /\
  md_title <$> parse_metadata (document retitled_issue) = Some ("B" : str) /\
  ~ round_trip retitled_issue.
Proof.
  split; [reflexivity|]. split; [reflexivity|].
  unfold round_trip. intros H. apply (f_equal (fmap md_title)) in H.
  vm_compute in H. discriminate H.
Qed.

(** C7, amended: for an issue none of whose metadata keys and values holds
    a line break, and whose caller-supplied fields use none of the keys
    [title], [category], [priority], [sequence] and [issue_index], reading
    the metadata block of the record gives back the title, the category,
    the priority (the empty string for an absent one), the sequence and
    the issue index of the issue. *)
Theorem document_round_trip (issue : Issue) :
  Forall (fun kv => (LF ∉ kv.1) /\ (LF ∉ kv.2)) (frontmatter_fields issue) ->
  Forall (fun kv => kv.1 ∉ round_trip_keys) (extra_frontmatter issue) ->
  round_trip issue.
Proof.
  intros Hlines Hkeys. unfold round_trip, parse_metadata.
  rewrite metadata_block_document by done.
  destruct (frontmatter_fields_shape issue Hkeys) as (g & st & so & rest & ->).
  cbn [map app].
  rewrite read_field_here.
  do 2 (rewrite (read_field_skip "category") by reflexivity).
  rewrite read_field_here.
  do 3 (rewrite (read_field_skip "priority") by reflexivity).
  rewrite read_field_here.
  do 7 (rewrite (read_field_skip "sequence") by reflexivity).
  rewrite read_field_here.
  do 6 (rewrite (read_field_skip "issue_index") by reflexivity).
  rewrite read_field_here.
  cbn [mbind option_bind]. by rewrite !int_of_str_of_int.
Qed.

Lemma document_round_trip_witness : round_trip sample_issue.
Proof.
  apply (document_round_trip sample_issue).
  - apply (bool_decide_unpack _). exact I.
  - apply Forall_nil. exact I.
Defined.

(** * Further properties of the program *)

(** ** How a run ends *)







(** ** What a run writes *)

Lemma destination_dir_of (c : str) (d : Path) :
  ensure_destination_dirs !! c = Some d -> d = path_div DEST_ROOT c.
Proof.
  unfold ensure_destination_dirs. rewrite lookup_insert_Some, lookup_singleton_Some.
  intros [[<- <-]|[_ [<- <-]]]; reflexivity.
Qed.

Lemma write_issue_path issue d counters w :
  exists p name,
    p = path_div d name /\ files w !! p = None /\
    write_issue issue d counters w =
      (Return ((generate_filename issue counters).1),
       {| files := <[p := document (generate_filename issue counters).1.1]> (files w);
          log := log w ++ [info_record p] |}).
Proof.
  destruct (write_issue_spec issue d counters w) as (p & E & Hfree & Hp).
  destruct Hp as [->|(_ & k & _ & -> & _)]; eexists _, _; by split.
Qed.

Lemma write_all_files issues counters w written counters' w' :
  write_all ensure_destination_dirs issues counters w
    = (Return (written, counters'), w') ->
  exists paths,
    Forall2 (fun i p =>
               files w !! p = None /\ files w' !! p = Some (document i) /\
               exists name, p = path_div (path_div DEST_ROOT (category i)) name)
            written paths /\
    NoDup paths /\
    (forall p, p ∉ paths -> files w' !! p = files w !! p) /\
    log w' = log w ++ map info_record paths.
Proof.
  revert counters w written counters' w'.
  induction issues as [|issue rest IH]; intros counters w written counters' w'.
  { cbn. intros [= <- <- <-]. exists []. split; [constructor|].
    split; [constructor|]. split; [done|]. by rewrite app_nil_r. }
  cbn [write_all]. unfold bind.
  destruct (ensure_destination_dirs !! category issue) as [d|] eqn:Ed; [|done].
  cbn [ret]. apply destination_dir_of in Ed. subst d.
  destruct (write_issue_path issue (path_div DEST_ROOT (category issue)) counters w)
    as (p & name & Hp & Hfree & ->).
  rewrite generate_filename_result. cbn [fst].
  set (i1 := set_sequence issue _). set (c1 := <[_ := _]> counters).
  set (w1 := {| files := _; log := _ |}).
  destruct (write_all ensure_destination_dirs rest c1 w1) as [[[rest' c2]| |] w2] eqn:E;
    [|done|done].
  intros [= <- <- <-].
  destruct (IH _ _ _ _ _ E) as (paths & Hall & Hnodup & Hframe & Hlog).
  assert (Hnew : Forall (fun q => files w1 !! q = None) paths).
  { clear -Hall. induction Hall as [|i q ? ? (Hq & _) _ IH']; by constructor. }
  assert (Hp1 : files w1 !! p = Some (document i1)).
  { unfold w1. cbn [files]. by rewrite lookup_insert_eq. }
  assert (Hnotin : p ∉ paths).
  { intros Hin. rewrite Forall_forall in Hnew. specialize (Hnew _ Hin). congruence. }
  exists (p :: paths). split; [|split; [|split]].
  - constructor.
    + split; [done|]. split; [by rewrite Hframe|]. by exists name.
    + eapply Forall2_impl; [exact Hall|]. intros i q (Hq & Hdoc & Hdir).
      split; [|by split]. unfold w1 in Hq. cbn [files] in Hq.
      by apply lookup_insert_None in Hq as [Hq _].
  - by constructor.
  - intros q [Hne Hq]%not_elem_of_cons. rewrite Hframe by done.
    unfold w1. cbn [files]. by rewrite lookup_insert_ne.
  - rewrite Hlog. unfold w1. cbn [log map]. by rewrite <- app_assoc.
Qed.

(** X2: a run that returns has written one new file for each issue, and
    nothing else: the file of an issue did not exist before the run, holds
    the document of the issue and lies in the directory of its category
    under [DEST_ROOT]; the files of different issues differ; every other
    path is as it was before the run, so that no file is overwritten,
    emptied or removed; and after the records of extraction the log has
    one [INFO] record for each file, in the order of writing. *)
Theorem main_writes_new_files source_files w written w' :
  main (Some source_files) w = (Return written, w') ->
  exists paths,
    Forall2 (fun i p =>
               files w !! p = None /\ files w' !! p = Some (document i) /\
               exists name, p = path_div (path_div DEST_ROOT (category i)) name)
            written paths /\
    NoDup paths /\
    (forall p, p ∉ paths -> files w' !! p = files w !! p) /\
    log w' = log (extract_all source_files w).2 ++ map info_record paths.
Proof.
  unfold main, bind. pose proof (extract_all_spec source_files w) as [Hf _].
  destruct (extract_all source_files w) as [[issues| |] w0]; [|done|done].
  cbn [snd] in *.
  destruct (write_all ensure_destination_dirs issues ∅ w0)
    as [[[written0 c]| |] w1] eqn:E; [|done|done].
  intros [= <- <-].
  destruct (write_all_files _ _ _ _ _ _ E) as (paths & Hall & Hnodup & Hframe & Hlog).
  exists paths. rewrite Hf in *. by repeat split.
Qed.

Lemma sample_run :
  exists written w', main (Some sample_files) empty_world = (Return written, w').
Proof.
  pose proof (main_spec sample_files empty_world) as H.
  destruct (extract_all sample_files empty_world) as [[issues| |] w0] eqn:E.
  - destruct H as (written & w' & Hm & _). by exists written, w'.
  - vm_compute in E. discriminate E.
  - done.
Qed.

Lemma main_writes_new_files_witness :
  exists written w' paths,
    main (Some sample_files) empty_world = (Return written, w') /\
    Forall2 (fun i p =>
               files empty_world !! p = None /\ files w' !! p = Some (document i) /\
               exists name, p = path_div (path_div DEST_ROOT (category i)) name)
            written paths /\
    NoDup paths.
Proof.
  destruct sample_run as (written & w' & E). exists written, w'.
  destruct (main_writes_new_files sample_files empty_world written w' E)
    as (paths & H1 & H2 & _).
  exists paths. split; [exact E|]. split; [exact H1|exact H2].
Defined.

(** X3: [write_issue] always returns: the [while] loop ends in every
    state of the destination directory.  It writes exactly one file, at a
    path that did not exist: the candidate name when that is free, and
    otherwise [base_name_k.md] for the least [k] from 1 on whose name is
    free, every smaller suffix being taken.  It logs one [INFO] record for
    that path and returns the issue with its sequence number set. *)
Theorem write_issue_first_free issue d counters w :
  exists p,
    write_issue issue d counters w =
      (Return ((generate_filename issue counters).1),
       {| files := <[p := document (generate_filename issue counters).1.1]> (files w);
          log := log w ++ [info_record p] |}) /\
    files w !! p = None /\
    (files w !! path_div d (generate_filename issue counters).2.2 = None ->
     p = path_div d (generate_filename issue counters).2.2) /\
    (is_Some (files w !! path_div d (generate_filename issue counters).2.2) ->
     exists k, 1 <= k /\
       p = suffixed d (generate_filename issue counters).2.1 k /\
       forall j, 1 <= j < k ->
         is_Some (files w !! suffixed d (generate_filename issue counters).2.1 j)).
Proof.
  destruct (write_issue_spec issue d counters w) as (p & E & Hfree & Hp).
  exists p. split; [exact E|]. split; [exact Hfree|]. split.
  - intros Hc. destruct Hp as [->|([x Hx] & _)]; [done|congruence].
  - intros [x Hx]. destruct Hp as [->|(_ & Hk)]; [congruence|done].
Qed.

Lemma write_issue_first_free_witness :
  exists p,
    files empty_world !! p = None /\
    p = path_div (path_div DEST_ROOT "monitoring")
          (generate_filename sample_issue ∅).2.2.
Proof.
  destruct (write_issue_first_free sample_issue (path_div DEST_ROOT "monitoring")
              ∅ empty_world) as (p & _ & Hfree & Hcand & _).
  exists p. split; [exact Hfree|]. apply Hcand. vm_compute. reflexivity.
Defined.

(** ** The sequence prefix of a file name *)

Lemma string_of_uint_digits (d : Decimal.uint) :
  Forall (fun c => is_digit c = true)
    (String.list_ascii_of_string (DecimalString.NilEmpty.string_of_uint d)).
Proof. induction d; cbn; constructor; done. Qed.

Lemma str_of_int_uint (z : Z) :
  0 <= z ->
  exists d, str_of_int z
            = String.list_ascii_of_string (DecimalString.NilEmpty.string_of_uint d)
            /\ Z.of_uint d = z /\ d <> Decimal.Nil.
Proof.
  intros Hz. unfold str_of_int. destruct z as [|p|p]; [| |lia].
  - exists (Decimal.D0 Decimal.Nil). by repeat split.
  - exists (Pos.to_uint p). cbn.
    pose proof (DecimalPos.Unsigned.to_uint_nonnil p) as Hn.
    split; [by destruct (Pos.to_uint p)|]. split; [|done].
    exact (DecimalZ.of_to (Zpos p)).
Qed.

Lemma uint_of_zeros (k : nat) (l : str) (d : Decimal.uint) :
  DecimalString.NilEmpty.uint_of_string (String.string_of_list_ascii l) = Some d ->
  exists d', DecimalString.NilEmpty.uint_of_string
               (String.string_of_list_ascii (repeat "0"%char k ++ l)) = Some d'
             /\ Z.of_uint d' = Z.of_uint d.
Proof.
  intros H. induction k as [|k (d' & E & Hd')]; [by exists d|].
  exists (Decimal.D0 d'). cbn. rewrite E. by split.
Qed.

Lemma int_of_str_zfill (width : nat) (z : Z) :
  0 <= z -> int_of_str (zfill width (str_of_int z)) = Some z.
Proof.
  intros Hz. unfold zfill.
  destruct (width - length (str_of_int z))%nat as [|k] eqn:Ek.
  { cbn. apply int_of_str_of_int. }
  destruct (str_of_int_uint z Hz) as (d & -> & Hd & _).
  destruct (uint_of_zeros k
              (String.list_ascii_of_string (DecimalString.NilEmpty.string_of_uint d)) d)
    as (d' & E & Hd').
  { rewrite String.string_of_list_ascii_of_string. apply DecimalString.NilEmpty.usu. }
  unfold int_of_str. cbn. rewrite E. cbn. f_equal.
  transitivity (Z.of_uint d'); [reflexivity|congruence].
Qed.

Lemma format_03d_digits (z : Z) :
  0 <= z ->
  Forall (fun c => is_digit c = true) (format_03d z) /\
  (3 <= length (format_03d z))%nat /\
  int_of_str (format_03d z) = Some z.
Proof.
  intros Hz. unfold format_03d. rewrite (proj2 (Z.ltb_ge z 0)) by done.
  split; [|split; [|by apply int_of_str_zfill]].
  - unfold zfill. apply Forall_app. split.
    + apply Forall_forall. intros c Hc.
      apply list_elem_of_In, repeat_spec in Hc. by subst c.
    + destruct (str_of_int_uint z Hz) as (d & -> & _). apply string_of_uint_digits.
  - unfold zfill. rewrite length_app, repeat_length. lia.
Qed.

Lemma format_03d_prefix (z : Z) (x : str) :
  0 <= z -> take_while is_digit (format_03d z ++ "_" ++ x) = format_03d z.
Proof.
  intros Hz. destruct (format_03d_digits z Hz) as (Hd & _).
  rewrite take_while_app_all by done. cbn. by rewrite app_nil_r.
Qed.

Lemma format_03d_prefix_inj (a b : Z) (x y : str) :
  0 <= a -> 0 <= b ->
  format_03d a ++ "_" ++ x = format_03d b ++ "_" ++ y -> a = b.
Proof.
  intros Ha Hb E. apply (f_equal (take_while is_digit)) in E.
  rewrite !format_03d_prefix in E by done.
  destruct (format_03d_digits a Ha) as (_ & _ & Ea).
  destruct (format_03d_digits b Hb) as (_ & _ & Eb). congruence.
Qed.

(** X4: [generate_filename] gives the issue the next number of its
    category: one more than the counter, which it stores back, the
    counters of the other categories being left alone.  The file name
    begins with that number written with at least three digits, so that
    the leading digits of the name read back as the sequence number, also
    from 1000 on, where nothing is cut off. *)
Theorem generate_filename_sequence issue counters :
  0 <= default 0 (counters !! category issue) ->
  sequence (generate_filename issue counters).1.1
    = default 0 (counters !! category issue) + 1 /\
  (generate_filename issue counters).1.2 !! category issue
    = Some (sequence (generate_filename issue counters).1.1) /\
  (forall c, c <> category issue ->
             (generate_filename issue counters).1.2 !! c = counters !! c) /\
  (3 <= length (take_while is_digit (generate_filename issue counters).2.2))%nat /\
  int_of_str (take_while is_digit (generate_filename issue counters).2.2)
    = Some (sequence (generate_filename issue counters).1.1).
Proof.
  intros Hc. unfold generate_filename. cbn [fst snd sequence set_sequence].
  set (n := default 0 (counters !! category issue) + 1).
  assert (Hn : 0 <= n) by (unfold n; lia).
  destruct (format_03d_digits n Hn) as (_ & Hlen & Hread).
  split; [done|]. split; [by rewrite lookup_insert_eq|].
  split; [by intros c Hne; rewrite lookup_insert_ne|].
  rewrite <- !app_assoc, format_03d_prefix by done. by split.
Qed.

Lemma generate_filename_sequence_witness :
  int_of_str (take_while is_digit (generate_filename sample_issue ∅).2.2)
    = Some (sequence (generate_filename sample_issue ∅).1.1).
Proof.
  apply (generate_filename_sequence sample_issue ∅). vm_compute. discriminate.
Defined.

(** ** A run into empty destination directories *)

Lemma destination_path_inj (c c' name name' : str) :
  path_div (path_div DEST_ROOT c) name = path_div (path_div DEST_ROOT c') name' ->
  c = c' /\ name = name'.
Proof.
  unfold path_div. rewrite <- !app_assoc. intros E%app_inv_head.
  by injection E as -> ->.
Qed.

Lemma write_all_fresh issues counters w written counters' w' :
  numbered_below counters w ->
  (forall c, 0 <= default 0 (counters !! c)) ->
  write_all ensure_destination_dirs issues counters w
    = (Return (written, counters'), w') ->
  log w' = log w ++ map (fun i => info_record (candidate_path i)) written.
Proof.
  revert counters w written counters' w'.
  induction issues as [|issue rest IH]; intros counters w written counters' w' Hnum Hpos.
  { cbn. intros [= <- <- <-]. by rewrite app_nil_r. }
  cbn [write_all]. unfold bind.
  destruct (ensure_destination_dirs !! category issue) as [d|] eqn:Ed; [|done].
  cbn [ret]. apply destination_dir_of in Ed. subst d.
  destruct (write_issue_spec issue (path_div DEST_ROOT (category issue)) counters w)
    as (p & -> & Hfree & Hp).
  rewrite generate_filename_result in *. cbn [fst] in *.
  set (n := default 0 (counters !! category issue) + 1) in *.
  set (i1 := set_sequence issue n) in *.
  set (c1 := <[category issue := n]> counters).
  assert (Hcand : p = candidate_path i1).
  { destruct Hp as [->|(Htaken & _)]; [reflexivity|]. exfalso.
    apply Hnum in Htaken as (m & x & Hm & E). cbn in E.
    rewrite <- !app_assoc in E. fold n in E.
    apply format_03d_prefix_inj in E; unfold n in *; lia. }
  subst p.
  set (w1 := {| files := _; log := _ |}).
  destruct (write_all ensure_destination_dirs rest c1 w1) as [[[rest' c2]| |] w2] eqn:E;
    [|done|done].
  intros [= <- <- <-].
  erewrite (IH c1 w1); [| | |exact E].
  - unfold w1. cbn [log map]. by rewrite <- app_assoc.
  - intros c name. unfold w1. cbn [files].
    destruct (decide (candidate_path i1 = path_div (path_div DEST_ROOT c) name))
      as [Heq|Hne].
    + intros _. apply destination_path_inj in Heq as [<- <-].
      exists n, (group issue ++ "_" ++ sanitize_title (title issue) ++ ".md").
      split.
      * unfold c1. cbn [category i1 set_sequence].
        rewrite lookup_insert_eq. cbn. unfold n. specialize (Hpos (category issue)). lia.
      * rewrite <- !app_assoc. reflexivity.
    + rewrite lookup_insert_ne by done. intros Hs.
      destruct (Hnum c name Hs) as (m & x & Hm & ->). exists m, x. split; [|done].
      unfold c1. destruct (decide (category issue = c)) as [<-|Hc].
      * rewrite lookup_insert_eq. cbn. unfold n. lia.
      * by rewrite lookup_insert_ne.
  - intros c. unfold c1. destruct (decide (category issue = c)) as [<-|Hc].
    + rewrite lookup_insert_eq. cbn. unfold n. specialize (Hpos (category issue)). lia.
    + rewrite lookup_insert_ne by done. apply Hpos.
Qed.

(** X5: a run that starts with no file in the directories of [DEST_ROOT]
    never needs a suffix.  Every issue is written under its candidate
    name, the sequence number with three digits or more, the group and the
    sanitized title, in the directory of its category; these paths differ
    from one another, each holds the document of its issue after the run,
    no other path is changed, and the log ends with one [INFO] record for
    each of them, in the order of writing. *)
Theorem main_fresh_names source_files w written w' :
  fresh_destination w ->
  main (Some source_files) w = (Return written, w') ->
  Forall (fun i => files w' !! candidate_path i = Some (document i)) written /\
  NoDup (map candidate_path written) /\
  (forall p, p ∉ map candidate_path written -> files w' !! p = files w !! p) /\
  log w' = log (extract_all source_files w).2
             ++ map (fun i => info_record (candidate_path i)) written.
Proof.
  intros Hfresh. unfold main, bind.
  pose proof (extract_all_spec source_files w) as [Hf _].
  destruct (extract_all source_files w) as [[issues| |] w0]; [|done|done].
  cbn [snd] in *.
  destruct (write_all ensure_destination_dirs issues ∅ w0)
    as [[[written0 c]| |] w1] eqn:E; [|done|done].
  intros [= <- <-].
  destruct (write_all_files _ _ _ _ _ _ E) as (paths & Hall & Hnodup & Hframe & Hlog).
  assert (Hlog' : log w1 = log w0 ++ map (fun i => info_record (candidate_path i)) written0).
  { eapply write_all_fresh; [| |exact E].
    - intros c' name [x Hx]. rewrite Hf, Hfresh in Hx. discriminate Hx.
    - intros c'. by rewrite lookup_empty. }
  assert (Hpaths : paths = map candidate_path written0).
  { rewrite Hlog in Hlog'. apply app_inv_head in Hlog'.
    rewrite <- (map_map candidate_path info_record) in Hlog'.
    revert Hlog'. generalize (map candidate_path written0). clear.
    induction paths as [|p paths IH]; intros [|q qs]; cbn; try done.
    intros [= -> E]. f_equal. by apply IH. }
  subst paths. rewrite Hf in *. split; [|by repeat split].
  clear -Hall. remember (map candidate_path written0) as paths eqn:Ep.
  revert Ep. induction Hall as [|i p ? ? (_ & Hdoc & _) _ IH]; [constructor|].
  cbn. intros [= -> ->]. constructor; [done|]. by apply IH.
Qed.

Lemma main_fresh_names_witness :
  exists written w',
    main (Some sample_files) empty_world = (Return written, w') /\
    Forall (fun i => files w' !! candidate_path i = Some (document i)) written /\
    NoDup (map candidate_path written).
Proof.
  destruct sample_run as (written & w' & E). exists written, w'.
  assert (Hfresh : fresh_destination empty_world) by (intros c name; apply lookup_empty).
  destruct (main_fresh_names sample_files empty_world written w' Hfresh E)
    as (H1 & H2 & _).
  split; [exact E|]. split; [exact H1|exact H2].
Defined.

(** ** Headings *)

Section Runs.
Variable p : ascii -> bool.

Lemma take_while_stops (b : str) : stops p b -> take_while p b = [].
Proof. destruct b as [|c b]; cbn; [done|]. by intros ->. Qed.

Lemma drop_while_stops (b : str) : stops p b -> drop_while p b = b.
Proof. destruct b as [|c b]; cbn; [done|]. by intros ->. Qed.

Lemma take_while_run (a b : str) :
  Forall (fun c => p c = true) a -> stops p b -> take_while p (a ++ b) = a.
Proof.
  intros Ha Hb. by rewrite take_while_app_all, take_while_stops, app_nil_r.
Qed.

Lemma drop_while_run (a b : str) :
  Forall (fun c => p c = true) a -> stops p b -> drop_while p (a ++ b) = b.
Proof.
  intros Ha Hb. induction Ha as [|c a Hc _ IH]; cbn.
  - by apply drop_while_stops.
  - by rewrite Hc.
Qed.

Lemma drop_while_stopped (s : str) : stops p (drop_while p s).
Proof.
  destruct (drop_while p s) as [|c t] eqn:E; [done|]. cbn.
  by apply drop_while_head in E.
Qed.

Lemma take_while_head_of (s : str) c t :
  take_while p s = c :: t -> exists s', s = c :: s' /\ p c = true.
Proof.
  destruct s as [|c' s]; cbn; [done|]. destruct (p c') eqn:E; [|done].
  intros [= -> _]. eauto.
Qed.

End Runs.

Lemma digit_not_space c : is_digit c = true -> is_space c = false.
Proof.
  destruct c as [[] [] [] [] [] [] [] []]; intros H; vm_compute in H;
    try discriminate H; reflexivity.
Qed.

Lemma not_newline_iff c : negb (is_newline c) = true <-> c <> LF.
Proof. unfold is_newline. case_bool_decide; cbn; split; congruence. Qed.

Lemma positive_length (s : str) : (0 <? length s)%nat = true <-> s <> [].
Proof. destruct s; cbn; split; congruence. Qed.

(** One attempt of the heading pattern succeeds exactly on the strings
    that begin with a heading. *)
Lemma heading_match_here (s : str) (len : nat) (g1 g2 : str) :
  ISSUE_HEADING_PATTERN.match_here s = Some (len, g1, g2) <-> heading_at s len g1 g2.
Proof.
  split.
  - unfold ISSUE_HEADING_PATTERN.match_here.
    destruct (strip_prefix "###" s) as [r1|] eqn:E1; [|done].
    destruct (strip_prefix "." _) as [r4|] eqn:E4; [|done].
    destruct (_ && _ && _) eqn:Hb; [|done]. intros [= <- <- <-].
    apply andb_prop in Hb as [Hb Hw2]. apply andb_prop in Hb as [Hw1 Hd].
    apply positive_length in Hw1, Hd, Hw2.
    apply strip_prefix_Some in E1, E4.
    pose proof (take_drop_while is_space r1) as H1.
    pose proof (take_drop_while is_digit (drop_while is_space r1)) as H2.
    pose proof (take_drop_while is_space r4) as H3.
    pose proof (take_drop_while (fun c => negb (is_newline c))
                  (drop_while is_space r4)) as H4.
    exists (take_while is_space r1), (take_while is_space r4),
      (drop_while (fun c => negb (is_newline c)) (drop_while is_space r4)).
    split; [|split; [done|]].
    { rewrite E1. f_equal. etransitivity; [symmetry; exact H1|]. f_equal.
      etransitivity; [symmetry; exact H2|]. f_equal. rewrite E4. f_equal.
      etransitivity; [symmetry; exact H3|]. f_equal. symmetry. exact H4. }
    split; [done|]. split; [apply take_while_Forall|].
    split; [done|]. split; [apply take_while_Forall|].
    split; [done|]. split; [apply take_while_Forall|].
    split.
    { eapply Forall_impl; [apply take_while_Forall|]. intros c. apply not_newline_iff. }
    pose proof (drop_while_stopped is_space r4) as Hstop.
    split.
    + destruct (take_while _ (drop_while is_space r4)) as [|c t] eqn:Et.
      * destruct (drop_while is_space r4) as [|c r5] eqn:E5; [done|].
        cbn in Et, Hstop |- *. destruct (negb (is_newline c)) eqn:Ec; [done|].
        apply negb_false_iff, bool_decide_eq_true in Ec. subst c. done.
      * apply take_while_head_of in Et as (s' & Es & _). rewrite Es in Hstop. exact Hstop.
    + pose proof (drop_while_stopped (fun c => negb (is_newline c))
                    (drop_while is_space r4)) as Hnl.
      destruct (drop_while (fun c => negb (is_newline c)) _) as [|c t]; [by left|].
      right. exists t. cbn in Hnl. apply negb_false_iff, bool_decide_eq_true in Hnl.
      by subst c.
  - intros (ws1 & ws2 & rest & -> & -> & Hw1 & Fw1 & Hg1 & Fg1 & Hw2 & Fw2 & Fg2
            & Hhead & Hrest).
    assert (S1 : stops is_space (g1 ++ ("." : str) ++ ws2 ++ g2 ++ rest)).
    { destruct Fg1 as [|c g1 Hc _]; [done|]. cbn. by apply digit_not_space. }
    assert (S2 : stops is_digit (("." : str) ++ ws2 ++ g2 ++ rest)) by done.
    assert (S3 : stops is_space (g2 ++ rest)).
    { destruct g2 as [|c g2]; [by subst rest|]. exact Hhead. }
    assert (S4 : stops (fun c => negb (is_newline c)) rest).
    { destruct Hrest as [->|[t ->]]; done. }
    assert (F4 : Forall (fun c => negb (is_newline c) = true) g2).
    { eapply Forall_impl; [exact Fg2|]. intros c. apply not_newline_iff. }
    unfold ISSUE_HEADING_PATTERN.match_here.
    rewrite (proj2 (strip_prefix_Some "###" _ _) eq_refl). cbv zeta.
    rewrite (take_while_run is_space ws1), (drop_while_run is_space ws1) by done.
    rewrite (take_while_run is_digit g1), (drop_while_run is_digit g1) by done.
    rewrite (proj2 (strip_prefix_Some "." _ _) eq_refl).
    rewrite (take_while_run is_space ws2), (drop_while_run is_space ws2) by done.
    rewrite (take_while_run _ g2) by done.
    apply positive_length in Hw1, Hg1, Hw2. by rewrite Hw1, Hg1, Hw2.
Qed.

Lemma finditer_from_sound (s : str) pos bol skip m :
  m ∈ ISSUE_HEADING_PATTERN.finditer_from pos bol skip s ->
  exists pre suf,
    s = pre ++ suf /\ m_start m = (pos + length pre)%nat /\
    (pre = [] /\ bol = true \/ exists pre', pre = pre' ++ [LF]) /\
    ISSUE_HEADING_PATTERN.match_here suf
      = Some ((m_end m - m_start m)%nat, group1 m, group2 m).
Proof.
  revert pos bol skip. induction s as [|c s IH]; intros pos bol skip; [by intros ?%elem_of_nil|].
  assert (Htail : forall k,
            m ∈ ISSUE_HEADING_PATTERN.finditer_from (S pos) (is_newline c) k s ->
            exists pre suf,
              c :: s = pre ++ suf /\ m_start m = (pos + length pre)%nat /\
              (pre = [] /\ bol = true \/ exists pre', pre = pre' ++ [LF]) /\
              ISSUE_HEADING_PATTERN.match_here suf
                = Some ((m_end m - m_start m)%nat, group1 m, group2 m)).
  { intros k Hm. destruct (IH _ _ _ Hm) as (pre & suf & -> & Hst & Hbol & Hmatch).
    exists (c :: pre), suf. split; [done|]. split; [cbn; lia|]. split; [|done].
    right. destruct Hbol as [[-> Hc]|[pre' ->]].
    - exists []. apply bool_decide_eq_true in Hc. by subst c.
    - by exists (c :: pre'). }
  cbn [ISSUE_HEADING_PATTERN.finditer_from]. destruct skip as [|k]; [|apply Htail].
  destruct (if bol then ISSUE_HEADING_PATTERN.match_here (c :: s) else None)
    as [[[len g1] g2]|] eqn:Em; [|apply Htail].
  intros [->|Hm]%elem_of_cons; [|by eapply Htail].
  destruct bol; [|done]. exists [], (c :: s). cbn [m_start m_end group1 group2 length].
  split; [done|]. split; [lia|]. split; [by left|].
  rewrite Em. replace (pos + len - pos)%nat with len by lia. done.
Qed.

Lemma sections_elem (text : str) (ms : list Match) m raw :
  (m, raw) ∈ sections text ms -> m ∈ ms.
Proof.
  unfold sections. intros (idx & H)%list_elem_of_lookup_1.
  rewrite list_lookup_imap in H.
  destruct (ms !! idx) as [m'|] eqn:E; [|done]. cbn in H. injection H as <- _.
  by eapply list_elem_of_lookup_2.
Qed.

Lemma finditer_heading_match (text : str) m :
  m ∈ ISSUE_HEADING_PATTERN.finditer text -> heading_match text m.
Proof.
  intros Hm. apply finditer_from_sound in Hm as (pre & suf & -> & Hst & Hbol & Hmatch).
  exists pre, suf. split; [done|]. split; [done|]. split.
  - destruct Hbol as [[-> _]|?]; [by left|by right].
  - by apply heading_match_here.
Qed.

(** X6: what [ISSUE_HEADING_PATTERN] takes for a heading.  Every match
    that [finditer] yields starts at the beginning of a line and has the
    form: three hashes, white space, digits, a dot, white space, and text
    to the end of its line, where each run of white space may hold line
    breaks, so that the number or the text may stand on a later line than
    the hashes.  Group 1 is a non-empty run of digits; group 2 holds no
    line break and does not begin with white space.  A text that begins
    with such a heading has it as its first match. *)
Theorem finditer_headings (text : str) :
  Forall (heading_match text) (ISSUE_HEADING_PATTERN.finditer text) /\
  (forall len g1 g2,
      heading_at text len g1 g2 ->
      exists ms,
        ISSUE_HEADING_PATTERN.finditer text
        = {| m_start := 0; m_end := len; group1 := g1; group2 := g2 |} :: ms).
Proof.
  split.
  - apply Forall_forall. intros m. apply finditer_heading_match.
  - intros len g1 g2 H. pose proof H as H'. apply heading_match_here in H.
    destruct H' as (ws1 & ws2 & rest & -> & _).
    unfold ISSUE_HEADING_PATTERN.finditer.
    cbn [app String.list_ascii_of_string ISSUE_HEADING_PATTERN.finditer_from] in *.
    rewrite H. eauto.
Qed.

Lemma finditer_headings_witness :
  exists ms,
    ISSUE_HEADING_PATTERN.finditer
      (("###" : str) ++ [LF] ++ ("7" : str) ++ ("." : str) ++ [LF] ++ ("Leak" : str))
    = {| m_start := 0; m_end := 11; group1 := "7"; group2 := "Leak" |} :: ms.
Proof.
  apply (proj2 (finditer_headings _)).
  exists [LF], [LF], []. repeat split; try done; try (by repeat constructor).
Defined.

(** ** The fields of an extracted issue *)

Lemma rstrip_by_nil (p : ascii -> bool) (s : str) :
  rstrip_by p s = [] -> Forall (fun c => p c = true) s.
Proof.
  unfold rstrip_by. intros E.
  assert (E' : drop_while p (rev s) = []).
  { by rewrite <- (rev_involutive (drop_while p (rev s))), E. }
  pose proof (take_drop_while p (rev s)) as H. rewrite E', app_nil_r in H.
  rewrite <- (rev_involutive s), <- H. apply Forall_rev, take_while_Forall.
Qed.

Lemma strip_by_elem (p : ascii -> bool) (s : str) c :
  c ∈ strip_by p s -> c ∈ s.
Proof.
  destruct (strip_by_infix p s) as (pre & post & E). intros H.
  rewrite E. apply elem_of_app. right. apply elem_of_app. by left.
Qed.

Lemma strip_keeps_head (s : str) c t :
  s = c :: t -> is_space c = false -> strip s <> [].
Proof.
  intros -> Hc. unfold strip, strip_by, lstrip_by.
  rewrite (drop_while_id is_space (c :: t) c t) by done.
  intros E%rstrip_by_nil. apply Forall_cons in E as [E _]. congruence.
Qed.

Lemma drop_take_while (p : ascii -> bool) (s : str) :
  drop (length (take_while p s)) s = drop_while p s.
Proof.
  rewrite <- (take_drop_while p s) at 2. by rewrite drop_app_length.
Qed.

Lemma priority_search_Some (span cap : str) :
  PRIORITY_PATTERN.search span = Some cap ->
  exists pre s, span = pre ++ s /\ PRIORITY_PATTERN.match_here s = Some cap.
Proof.
  induction span as [|c span IH]; cbn [PRIORITY_PATTERN.search].
  - destruct (PRIORITY_PATTERN.match_here []) eqn:E; [|done].
    intros [= <-]. by exists [], [].
  - destruct (PRIORITY_PATTERN.match_here (c :: span)) eqn:E.
    + intros [= <-]. by exists [], (c :: span).
    + intros (pre & s & -> & H)%IH. by exists (c :: pre), s.
Qed.

(** Group 1 of a match holds no line break; it begins with a character
    that is not white space unless only white space follows the label. *)
Lemma priority_match_text (s cap : str) :
  PRIORITY_PATTERN.match_here s = Some cap ->
  Forall (fun c => c <> LF) cap /\
  ((exists c t, cap = c :: t /\ is_space c = false) \/
   exists l r c, s = l ++ r ++ [c] /\ is_space c = true).
Proof.
  unfold PRIORITY_PATTERN.match_here.
  destruct (PRIORITY_PATTERN.label_here s) as [r|] eqn:El; [|done].
  apply label_here_Some in El as (l & _ & ->).
  intros (j & Hj & Hcap & Hne & Hup)%ws_then_text_Some. split.
  { rewrite <- Hcap. eapply Forall_impl; [apply take_while_Forall|].
    intros c. by rewrite not_newline_true. }
  pose proof (drop_while_stopped is_space r) as Hstop.
  rewrite <- drop_take_while in Hstop.
  destruct (decide (j = length (take_while is_space r))) as [->|Hlt].
  - left. destruct cap as [|c t]; [done|]. exists c, t. split; [done|].
    apply take_while_head_of in Hcap as (s' & Es & _). by rewrite Es in Hstop.
  - right. specialize (Hup (length (take_while is_space r)) ltac:(lia)).
    assert (Hall : drop (length (take_while is_space r)) r = []).
    { destruct (drop (length (take_while is_space r)) r) as [|c t] eqn:Ed; [done|].
      exfalso. destruct (decide (c = LF)) as [->|Hc]; [by vm_compute in Hstop|].
      apply not_newline_true in Hc. cbn [take_while] in Hup. by rewrite Hc in Hup. }
    rewrite drop_take_while in Hall.
    pose proof (take_drop_while is_space r) as Hr. rewrite Hall, app_nil_r in Hr.
    pose proof (take_while_Forall is_space r) as Hsp. rewrite Hr in Hsp.
    destruct (take_while is_space r) as [|c0 t0] eqn:Et; [cbn in *; lia|].
    clear Et. subst r.
    destruct (exists_last (l := c0 :: t0) ltac:(done)) as (r0 & c & Er).
    rewrite Er in *. exists l, r0, c. split; [done|].
    by apply Forall_app in Hsp as [_ [Hc _]%Forall_cons].
Qed.

Lemma priority_of_trimmed (x p : str) :
  priority_of (strip x) = Some p -> p <> [] /\ (LF ∉ p) /\ strip p = p.
Proof.
  unfold priority_of. destruct (PRIORITY_PATTERN.search (strip x)) as [cap|] eqn:E; [|done].
  intros [= <-]. apply priority_search_Some in E as (pre & s & Ex & Hm).
  apply priority_match_text in Hm as (Hnl & Hhead).
  split; [|split; [|apply strip_by_idemp]].
  - destruct Hhead as [(c & t & -> & Hc)|(l & r & c & -> & Hc)].
    + by eapply strip_keeps_head.
    + exfalso. rewrite !app_assoc in Ex.
      apply (strip_by_last is_space) in Ex. congruence.
  - intros Hin%strip_by_elem. rewrite Forall_forall in Hnl. by apply (Hnl LF).
Qed.

Lemma int_of_digits_nonneg (s : str) : 0 <= int_of_digits s.
Proof.
  unfold int_of_digits.
  assert (H : forall a, 0 <= a ->
                0 <= fold_left (fun acc c => 10 * acc + digit_value c) s a).
  { induction s as [|c s IH]; intros a Ha; cbn; [done|].
    apply IH. unfold digit_value. lia. }
  by apply H.
Qed.

Lemma build_issue_extracted sp (g c text : str) m raw :
  m ∈ ISSUE_HEADING_PATTERN.finditer text ->
  extracted_issue sp (built_issue sp g c m raw).
Proof.
  intros Hm. apply finditer_heading_match in Hm as (pre & s & _ & _ & _ & Hh).
  destruct Hh as (ws1 & ws2 & rest & _ & _ & _ & _ & _ & _ & _ & _ & Hnl & _).
  unfold extracted_issue, built_issue. cbn.
  split; [done|]. split; [done|]. split; [done|]. split; [done|].
  split; [apply int_of_digits_nonneg|].
  split; [|split; [apply strip_by_idemp|]].
  - intros Hin%strip_by_elem. rewrite Forall_forall in Hnl. by apply (Hnl LF).
  - intros p. unfold trim_section. apply priority_of_trimmed.
Qed.

(** X7: the issues that [extract_issues] returns stand for the heading
    matches one by one, in the order of the text: the title of each is
    the trimmed text of its heading and [source_issue_index] is the
    number of the heading as written, never below zero.  Every issue has
    the given source path, sequence 0, status [pending] and no extra
    field; its title holds no line break and no white space at either
    end; and its priority, when it has one, is not empty, holds no line
    break and no white space at either end. *)
Theorem extract_issues_fields sp text w issues :
  (extract_issues sp text w).1 = Return issues ->
  Forall (extracted_issue sp) issues /\
  map title issues
    = map (fun m => strip (group2 m)) (ISSUE_HEADING_PATTERN.finditer text) /\
  map source_issue_index issues
    = map (fun m => int_of_digits (group1 m)) (ISSUE_HEADING_PATTERN.finditer text).
Proof.
  intros E.
  apply extract_issues_Return in E as [[-> ->]|(_ & g & c & _ & _ & ->)];
    [by repeat split|].
  split; [|split].
  - apply Forall_forall. intros i Hi.
    apply list_elem_of_In, in_map_iff in Hi as ([m raw] & <- & Hin).
    apply list_elem_of_In, sections_elem in Hin. by eapply build_issue_extracted.
  - rewrite <- (sections_fst text (ISSUE_HEADING_PATTERN.finditer text)) at 2.
    by rewrite !map_map.
  - rewrite <- (sections_fst text (ISSUE_HEADING_PATTERN.finditer text)) at 2.
    by rewrite !map_map.
Qed.

Lemma extract_issues_fields_witness :
  exists issues,
    (extract_issues (path_div SOURCE_DIR "INFRA_MONITORING.md")
       rule_inside_document empty_world).1 = Return issues /\
    Forall (extracted_issue (path_div SOURCE_DIR "INFRA_MONITORING.md")) issues /\
    map title issues = [("Leak" : str)] /\
    map source_issue_index issues = [1].
Proof.
  eexists. split; [vm_compute; reflexivity|].
  eapply (extract_issues_fields _ rule_inside_document empty_world).
  vm_compute. reflexivity.
Defined.

(** ** From the name of a file to the fields of its issues *)

Lemma rfind_dot_md (s : str) : rfind_dot (s ++ ".md") = Some (length s).
Proof. induction s as [|c s IH]; [done|]. cbn [app rfind_dot length]. by rewrite IH. Qed.

Lemma path_name_div (d : Path) (name : str) : path_name (path_div d name) = name.
Proof. unfold path_name, path_div. apply last_last. Qed.

Lemma path_stem_md (d : Path) (s : str) :
  s <> [] -> path_stem (path_div d (s ++ ".md")) = s.
Proof.
  intros Hs. unfold path_stem. rewrite path_name_div, rfind_dot_md.
  assert (Hc : ((0 <? length s) && (length s <? length (s ++ ".md") - 1))%nat = true).
  { rewrite length_app. cbn [length String.list_ascii_of_string].
    apply andb_true_intro. split; [by apply positive_length|].
    apply Nat.ltb_lt. lia. }
  rewrite Hc. by rewrite take_app_length.
Qed.

Lemma take_elem (n : nat) (s : str) c : c ∈ take n s -> c ∈ s.
Proof. intros H. rewrite <- (take_drop n s). apply elem_of_app. by left. Qed.

Lemma path_stem_elem (d : Path) (name : str) c :
  c ∈ path_stem (path_div d name) -> c ∈ name.
Proof.
  unfold path_stem. rewrite path_name_div.
  destruct (rfind_dot name) as [i|]; [|done].
  destruct (_ && _); [|done]. apply take_elem.
Qed.

Lemma parse_group_elem (file_stem g c : str) x :
  parse_group file_stem = Return (g, c) -> x ∈ g -> x ∈ file_stem.
Proof.
  unfold parse_group, drop_last.
  repeat case_match; intros [= <- _] Hx; by eapply take_elem.
Qed.

Lemma sections_length (text : str) (ms : list Match) :
  length (sections text ms) = length ms.
Proof. unfold sections. apply length_imap. Qed.

Lemma issues_nonempty sp (g c text : str) (ms : list Match) :
  ms <> [] -> map (fun x => built_issue sp g c x.1 x.2) (sections text ms) <> [].
Proof.
  intros Hms E%(f_equal length). rewrite length_map, sections_length in E.
  by destruct ms.
Qed.

Lemma build_issue_group sp (g c : str) (l : list (Match * str)) :
  Forall (fun i => group i = g /\ category i = c)
    (map (fun x => built_issue sp g c x.1 x.2) l).
Proof. induction l; by constructor. Qed.

Lemma extract_issues_group sp text w issues :
  (extract_issues sp text w).1 = Return issues ->
  issues = [] /\ ISSUE_HEADING_PATTERN.finditer text = [] \/
  issues <> [] /\
  exists g c, parse_group (path_stem sp) = Return (g, c) /\
              Forall (fun i => group i = g /\ category i = c) issues.
Proof.
  intros E.
  apply extract_issues_Return in E as [[-> ->]|(Hne & g & c & Ep & _ & ->)];
    [by left|right].
  split; [by apply issues_nonempty|].
  exists g, c. split; [done|]. apply build_issue_group.
Qed.

Lemma build_issues_fits sp (g c : str) (l : list (Match * str)) :
  Forall label_fits (map fst l) ->
  build_issues sp g c l = Return (map (fun ms => built_issue sp g c ms.1 ms.2) l).
Proof.
  induction l as [|ms l IH]; [done|]. cbn [map]. intros [Hm Hl]%Forall_cons.
  cbn [build_issues]. by rewrite (build_issue_fits _ _ _ _ _ Hm), IH.
Qed.

Lemma build_issues_first_overlong sp (g c : str) (l : list (Match * str)) pre m post :
  map fst l = pre ++ m :: post -> Forall label_fits pre -> ~ label_fits m ->
  exists e, py_int (group1 m) = Raise e /\ build_issues sp g c l = Raise e.
Proof.
  revert l. induction pre as [|p pre IH]; intros [|ms l]; cbn [map app]; try done.
  - intros [= <- _] _ Hm. cbn [build_issues].
    destruct (build_issue_overlong sp g c ms.1 ms.2 Hm) as (e & E & ->). eauto.
  - intros [= <- El] [Hp Hpre]%Forall_cons Hm. cbn [build_issues].
    rewrite (build_issue_fits _ _ _ _ _ Hp).
    destruct (IH l El Hpre Hm) as (e & E & ->). eauto.
Qed.

Lemma label_fits_forallb (ms : list Match) :
  forallb (fun m => (length (group1 m) <=? INT_MAX_STR_DIGITS)%nat) ms = true ->
  Forall label_fits ms.
Proof.
  intros H. apply Forall_forall. intros m Hm%list_elem_of_In.
  rewrite forallb_forall in H. by apply Nat.leb_le, H.
Qed.

(** X8: the name of a source file decides the group and the category of
    its issues.  For a text with a heading all of whose labels have at
    most 4300 digits, extraction of [g_MONITORING.md] returns issues, at
    least one, all with group [g] and category [monitoring], and
    extraction of [g_PERFORMANCE.md] issues with group [g] and category
    [performance].  When the label of a heading has more digits,
    extraction of a file with such a name raises the [ValueError] of
    [int] for the first such heading.  For any other name [s.md], [s] not
    empty, extraction of a text with a heading raises the [ValueError]
    that names [s].  The world is left as it was in each case. *)
Theorem extract_issues_by_file_name (text : str) (w : World) :
  ISSUE_HEADING_PATTERN.finditer text <> [] ->
  (Forall label_fits (ISSUE_HEADING_PATTERN.finditer text) ->
   (forall g, exists issues,
       extract_issues (path_div SOURCE_DIR (g ++ "_MONITORING.md")) text w
         = (Return issues, w) /\ issues <> [] /\
       Forall (fun i => group i = g /\ category i = ("monitoring" : str)) issues) /\
   (forall g, exists issues,
       extract_issues (path_div SOURCE_DIR (g ++ "_PERFORMANCE.md")) text w
         = (Return issues, w) /\ issues <> [] /\
       Forall (fun i => group i = g /\ category i = ("performance" : str)) issues)) /\
  (forall pre m post,
      ISSUE_HEADING_PATTERN.finditer text = pre ++ m :: post ->
      Forall label_fits pre -> ~ label_fits m ->
      forall g suffix,
        suffix = ("_MONITORING.md" : str) \/ suffix = ("_PERFORMANCE.md" : str) ->
        extract_issues (path_div SOURCE_DIR (g ++ suffix)) text w
        = (Raise (ValueError
                    ("Exceeds the limit (4300 digits) for integer string conversion: value has "
                       ++ str_of_int (Z.of_nat (length (group1 m)))
                       ++ " digits; use sys.set_int_max_str_digits() to increase the limit")),
           w)) /\
  (forall s, s <> [] ->
      endswith s "_MONITORING" = false -> endswith s "_PERFORMANCE" = false ->
      extract_issues (path_div SOURCE_DIR (s ++ ".md")) text w
        = (Raise (ValueError ("Unable to determine category from filename: " ++ s)), w)).
Proof.
  intros Hm.
  assert (Heval : forall s g c,
             s <> [] -> parse_group s = Return (g, c) ->
             extract_issues (path_div SOURCE_DIR (s ++ ".md")) text w
             = (build_issues (path_div SOURCE_DIR (s ++ ".md")) g c
                  (sections text (ISSUE_HEADING_PATTERN.finditer text)), w)).
  { intros s g c Hs Hp. rewrite extract_issues_eval.
    destruct (ISSUE_HEADING_PATTERN.finditer text) as [|m0 ms] eqn:Em; [done|].
    by rewrite path_stem_md, Hp. }
  assert (Hrun : forall s g c,
             Forall label_fits (ISSUE_HEADING_PATTERN.finditer text) ->
             s <> [] -> parse_group s = Return (g, c) ->
             exists issues,
               extract_issues (path_div SOURCE_DIR (s ++ ".md")) text w
                 = (Return issues, w) /\ issues <> [] /\
               Forall (fun i => group i = g /\ category i = c) issues).
  { intros s g c Hfit Hs Hp. rewrite (Heval s g c Hs Hp), build_issues_fits.
    - eexists. split; [reflexivity|]. split; [by apply issues_nonempty|].
      apply build_issue_group.
    - by rewrite sections_fst. }
  split; [|split].
  - intros Hfit. split; intros g.
    + destruct (Hrun (g ++ "_MONITORING") g ("monitoring" : str) Hfit)
        as (issues & E & H).
      { by destruct g. }
      { apply parse_group_monitoring. }
      exists issues. by rewrite <- app_assoc in E.
    + destruct (Hrun (g ++ "_PERFORMANCE") g ("performance" : str) Hfit)
        as (issues & E & H).
      { by destruct g. }
      { apply parse_group_performance. }
      exists issues. by rewrite <- app_assoc in E.
  - intros pre m post E Hpre Hlong g suffix Hsuffix.
    assert (Hs : exists s c, g ++ suffix = s ++ ".md" /\ s <> [] /\
                             parse_group s = Return (g, c)).
    { destruct Hsuffix as [-> | ->].
      - exists (g ++ "_MONITORING"), ("monitoring" : str).
        split; [by rewrite <- app_assoc|]. split; [by destruct g|].
        apply parse_group_monitoring.
      - exists (g ++ "_PERFORMANCE"), ("performance" : str).
        split; [by rewrite <- app_assoc|]. split; [by destruct g|].
        apply parse_group_performance. }
    destruct Hs as (s & c & -> & Hs & Hp). rewrite (Heval s g c Hs Hp).
    destruct (build_issues_first_overlong (path_div SOURCE_DIR (s ++ ".md")) g c
                (sections text (ISSUE_HEADING_PATTERN.finditer text)) pre m post)
      as (e & He & ->); [by rewrite sections_fst|done|done|].
    by apply py_int_Raise in He as [_ ->].
  - intros s Hs H1 H2. rewrite extract_issues_eval.
    destruct (ISSUE_HEADING_PATTERN.finditer text) as [|m0 ms] eqn:Em; [done|].
    by rewrite path_stem_md, (parse_group_other s H1 H2).
Qed.

Lemma extract_issues_by_file_name_witness :
  (exists issues,
     extract_issues (path_div SOURCE_DIR (("INFRA" : str) ++ "_MONITORING.md"))
       rule_inside_document empty_world = (Return issues, empty_world) /\
     issues <> [] /\
     Forall (fun i => group i = ("INFRA" : str) /\ category i = ("monitoring" : str))
       issues) /\
  extract_issues (path_div SOURCE_DIR (("INFRA" : str) ++ "_MONITORING.md"))
    overlong_document empty_world
  = (Raise (ValueError
              "Exceeds the limit (4300 digits) for integer string conversion: value has 4301 digits; use sys.set_int_max_str_digits() to increase the limit"),
     empty_world).
Proof.
  split.
  - apply (proj1 (proj1 (extract_issues_by_file_name rule_inside_document empty_world
                           ltac:(vm_compute; discriminate))
                    ltac:(apply label_fits_forallb; vm_compute; reflexivity))).
  - apply (proj1 (proj2 (extract_issues_by_file_name overlong_document empty_world
                           ltac:(vm_compute; discriminate)))
             [] {| m_start := 0; m_end := 4311;
                   group1 := repeat "1"%char 4301; group2 := "Leak" |} []).
    + vm_compute. reflexivity.
    + constructor.
    + unfold label_fits. cbn [group1]. rewrite repeat_length. vm_compute. lia.
    + by left.
Defined.


(** ** Reading back what a run has written *)

Lemma round_trip_fields (issue : Issue) :
  Forall (fun kv => (LF ∉ kv.1) /\ (LF ∉ kv.2)) (frontmatter_fields issue) ->
  Forall (fun kv => kv.1 ∉ round_trip_keys) (extra_frontmatter issue) ->
  round_trip issue.
Proof.
  intros Hlines Hkeys. unfold round_trip, parse_metadata.
  rewrite metadata_block_document by done.
  destruct (frontmatter_fields_shape issue Hkeys) as (g & st & so & rest & ->).
  cbn [map app].
  rewrite read_field_here.
  do 2 (rewrite (read_field_skip "category") by reflexivity).
  rewrite read_field_here.
  do 3 (rewrite (read_field_skip "priority") by reflexivity).
  rewrite read_field_here.
  do 7 (rewrite (read_field_skip "sequence") by reflexivity).
  rewrite read_field_here.
  do 6 (rewrite (read_field_skip "issue_index") by reflexivity).
  rewrite read_field_here.
  cbn [mbind option_bind]. by rewrite !int_of_str_of_int.
Qed.

Lemma digits_single_line (s : str) :
  Forall (fun c => is_digit c = true) s -> LF ∉ s.
Proof.
  intros H Hin. rewrite Forall_forall in H. specialize (H _ Hin). done.
Qed.

Lemma str_of_int_single_line (z : Z) : LF ∉ str_of_int z.
Proof.
  destruct (Z.le_gt_cases 0 z) as [Hz|Hz].
  - destruct (str_of_int_uint z Hz) as (d & -> & _).
    apply digits_single_line, string_of_uint_digits.
  - destruct z as [|p|p]; [lia|lia|]. unfold str_of_int. cbn.
    apply not_elem_of_cons. split; [done|].
    pose proof (DecimalPos.Unsigned.to_uint_nonnil p) as Hn.
    replace (DecimalString.NilZero.string_of_uint (Pos.to_uint p))
      with (DecimalString.NilEmpty.string_of_uint (Pos.to_uint p))
      by (by destruct (Pos.to_uint p)).
    apply digits_single_line, string_of_uint_digits.
Qed.

Lemma extract_issues_extracted sp text w issues :
  (extract_issues sp text w).1 = Return issues ->
  Forall (extracted_issue sp) issues.
Proof.
  intros E.
  apply extract_issues_Return in E as [[_ ->]|(_ & g & c & _ & _ & ->)];
    [constructor|].
  apply Forall_forall. intros i Hi.
  apply list_elem_of_In, in_map_iff in Hi as ([m raw] & <- & Hin).
  apply list_elem_of_In, sections_elem in Hin. by eapply build_issue_extracted.
Qed.

Lemma extract_all_Forall (P : Issue -> Prop) source_files w issues :
  (forall name text w0 xs,
      (name, text) ∈ source_files ->
      (extract_issues (path_div SOURCE_DIR name) text w0).1 = Return xs ->
      Forall P xs) ->
  (extract_all source_files w).1 = Return issues -> Forall P issues.
Proof.
  revert w issues. induction source_files as [|[name text] rest IH]; intros w issues HP.
  { cbn. intros [= <-]. constructor. }
  cbn [extract_all]. unfold bind.
  destruct (extract_issues (path_div SOURCE_DIR name) text w) as [[xs| |] w1] eqn:E1;
    [|done|done].
  destruct (extract_all rest w1) as [[ys| |] w2] eqn:E2; [|done|done].
  cbn. intros [= <-]. apply Forall_app. split.
  - eapply (HP name text w); [by left|]. by rewrite E1.
  - eapply (IH w1); [|by rewrite E2]. intros n t w0 zs Hin. apply HP. by right.
Qed.

Lemma literal_single_line (s : str) : bool_decide (LF ∉ s) = true -> LF ∉ s.
Proof. apply bool_decide_eq_true. Qed.

Lemma single_line_round_trip (i : Issue) (n : Z) :
  single_line_issue i -> round_trip (set_sequence i n).
Proof.
  intros ((sp & _ & _ & Hst & Hex & _ & Ht & _ & Hp) & Hg & Hc & Hs).
  apply round_trip_fields;
    [|cbn [extra_frontmatter set_sequence]; rewrite Hex; constructor].
  unfold frontmatter_fields. cbn [extra_frontmatter set_sequence
    title group category priority status source_path source_issue_index sequence].
  rewrite Hex. cbn [dict_update fold_left].
  repeat (apply Forall_cons; split; [split; [by apply literal_single_line|]|]);
    cbn [snd]; try done; try apply str_of_int_single_line.
  - by destruct Hc as [-> | ->]; apply literal_single_line.
  - destruct (priority i) as [p|] eqn:Ep; cbn; [|apply not_elem_of_nil].
    by destruct (Hp p eq_refl) as (_ & H & _).
  - rewrite Hst. by apply literal_single_line.
Qed.

Lemma extract_issues_single_line name text w issues :
  LF ∉ name ->
  (extract_issues (path_div SOURCE_DIR name) text w).1 = Return issues ->
  Forall single_line_issue issues.
Proof.
  intros Hname E.
  pose proof (extract_issues_extracted _ _ _ _ E) as Hx.
  destruct (extract_issues_group _ _ _ _ E) as [[-> _]|(_ & g & c & Hp & Hg)];
    [constructor|].
  rewrite Forall_forall in Hx, Hg. apply Forall_forall. intros i Hi.
  destruct (Hg i Hi) as [Eg Ec]. specialize (Hx i Hi).
  unfold single_line_issue. rewrite Eg, Ec.
  split; [by exists (path_div SOURCE_DIR name)|]. split; [|split].
  - intros Hin. apply Hname. eapply path_stem_elem, parse_group_elem; [exact Hp|done].
  - by eapply parse_group_category.
  - destruct Hx as (-> & _). unfold relative_to_ROOT, path_div, SOURCE_DIR. cbn.
    repeat (apply not_elem_of_cons; split; [done|]). exact Hname.
Qed.

(** X9: the records of a run read back.  When no source file has a line
    break in its name, every issue that [main] has written, with the
    sequence number it was given, has a document whose metadata block
    reads back as its title, category, priority, sequence and issue
    index; and no written issue has the empty string for a priority, so
    that the empty priority of a record always stands for an absent
    one. *)
Theorem main_records_read_back source_files w written w' :
  Forall (fun f => LF ∉ f.1) source_files ->
  main (Some source_files) w = (Return written, w') ->
  Forall (fun i => round_trip i /\ priority i <> Some []) written.
Proof.
  intros Hnames Hmain.
  pose proof (main_spec source_files w) as H.
  destruct (extract_all source_files w) as [[issues| |] w0] eqn:E; [|congruence|done].
  destruct H as (written0 & w1 & Hm & Hrel & _).
  rewrite Hmain in Hm. injection Hm as <- <-.
  assert (Hall : Forall single_line_issue issues).
  { eapply (extract_all_Forall _ source_files w); [|by rewrite E].
    intros name text w2 xs Hin. apply extract_issues_single_line.
    rewrite Forall_forall in Hnames. exact (Hnames _ Hin). }
  clear -Hrel Hall.
  induction Hrel as [|i i' issues written Hi _ IH]; [constructor|].
  apply Forall_cons in Hall as [Hone Hall]. constructor; [|by apply IH].
  rewrite Hi. split; [by apply single_line_round_trip|].
  cbn [priority set_sequence]. intros Hp.
  destruct Hone as ((sp & _ & _ & _ & _ & _ & _ & _ & Hpr) & _).
  by destruct (Hpr [] Hp) as (Hne & _).
Qed.

Lemma main_records_read_back_witness :
  exists written w',
    main (Some sample_files) empty_world = (Return written, w') /\
    Forall (fun i => round_trip i /\ priority i <> Some []) written.
Proof.
  destruct sample_run as (written & w' & E). exists written, w'.
  split; [exact E|].
  apply (main_records_read_back sample_files empty_world written w'); [|exact E].
  apply (bool_decide_unpack _). vm_compute. exact I.
Defined.

(** ** The sanitizer on its own results *)

Lemma identifier_not_space c :
  identifier_char c -> c <> UNDERSCORE -> is_space c = false.
Proof.
  unfold identifier_char. intros [H|[H|H]] Hc; [| |done]; revert H;
    destruct c as [[] [] [] [] [] [] [] []]; vm_compute; congruence.
Qed.

Lemma identifier_alnum c :
  identifier_char c -> negb (is_alnum c) = true -> c = UNDERSCORE.
Proof.
  unfold identifier_char, is_alnum. intros [H|[H|H]]; [| |done]; rewrite H;
    rewrite ?orb_true_r; cbn; congruence.
Qed.

Lemma identifier_upper c : identifier_char c -> upper_char c = c.
Proof.
  unfold identifier_char, upper_char. intros H.
  assert (El : is_lower c = false); [|by rewrite El].
  destruct H as [H|[H| ->]]; [| |reflexivity]; revert H;
    destruct c as [[] [] [] [] [] [] [] []]; vm_compute; congruence.
Qed.

Lemma strip_by_fixed (p : ascii -> bool) (s : str) :
  (forall c t, s = c :: t -> p c = false) ->
  (forall t c, s = t ++ [c] -> p c = false) ->
  strip_by p s = s.
Proof.
  intros Hhead Hlast. unfold strip_by, lstrip_by.
  destruct s as [|c t]; [done|].
  rewrite (drop_while_id p (c :: t) c t eq_refl (Hhead c t eq_refl)).
  apply rstrip_by_id. exact Hlast.
Qed.

Lemma sub_runs_fixed (p : ascii -> bool) (r : ascii) (b : bool) (s : str) :
  Forall (fun c => p c = true -> c = r) s ->
  (forall a x y t, s = a ++ x :: y :: t -> p x = true -> p y = true -> False) ->
  (b = true -> stops p s) ->
  sub_runs p [r] b s = s.
Proof.
  intros Hr. revert b. induction Hr as [|c s Hc _ IH]; intros b Hdouble Hb; [done|].
  assert (Htail : forall a x y t, s = a ++ x :: y :: t -> p x = true -> p y = true -> False).
  { intros a x y t ->. exact (Hdouble (c :: a) x y t eq_refl). }
  cbn [sub_runs]. destruct (p c) eqn:Ec.
  - destruct b; [by specialize (Hb eq_refl); cbn in Hb; congruence|].
    rewrite (Hc eq_refl) in *. cbn. f_equal. apply IH; [done|]. intros _.
    destruct s as [|y t]; [done|]. cbn. destruct (p y) eqn:Ey; [|done].
    exfalso. by apply (Hdouble [] r y t).
  - f_equal. apply IH; [done|]. done.
Qed.

Lemma sanitize_title_fixed (u : str) : clean_identifier u -> sanitize_title u = u.
Proof.
  intros (Hne & Hchars & Hdouble & Hhead & Hlast).
  assert (Hnot : forall c, c ∈ u -> identifier_char c).
  { by apply Forall_forall. }
  assert (Hfirst : forall c t, u = c :: t -> c <> UNDERSCORE).
  { intros c t -> ->. by apply (Hhead t). }
  assert (Hend : forall t c, u = t ++ [c] -> c <> UNDERSCORE).
  { intros t c -> ->. by apply (Hlast t). }
  unfold sanitize_title.
  assert (E1 : strip u = u).
  { apply strip_by_fixed.
    - intros c t E. apply identifier_not_space; [|by eapply Hfirst].
      apply Hnot. rewrite E. by left.
    - intros t c E. apply identifier_not_space; [|by eapply Hend].
      apply Hnot. rewrite E. apply elem_of_app. right. by left. }
  rewrite E1.
  assert (E2 : sub_runs (fun c => negb (is_alnum c)) "_" false u = u).
  { apply (sub_runs_fixed _ UNDERSCORE); [| |done].
    - eapply Forall_impl; [exact Hchars|]. intros c. apply identifier_alnum.
    - intros a x y t E Hx Hy.
      assert (x = UNDERSCORE).
      { apply identifier_alnum; [|done]. apply Hnot. rewrite E.
        apply elem_of_app. right. by left. }
      assert (y = UNDERSCORE).
      { apply identifier_alnum; [|done]. apply Hnot. rewrite E.
        apply elem_of_app. right. right. by left. }
      subst x y. by apply (Hdouble a t). }
  rewrite E2.
  assert (E3 : sub_runs is_underscore "_" false u = u).
  { apply (sub_runs_fixed _ UNDERSCORE); [| |done].
    - apply Forall_forall. intros c _. apply is_underscore_true.
    - intros a x y t E Hx%is_underscore_true Hy%is_underscore_true.
      subst x y. by apply (Hdouble a t). }
  rewrite E3.
  assert (E4 : strip_underscores u = u).
  { apply strip_by_fixed.
    - intros c t E. destruct (is_underscore c) eqn:Ec; [|done].
      apply is_underscore_true in Ec. by destruct (Hfirst c t E).
    - intros t c E. destruct (is_underscore c) eqn:Ec; [|done].
      apply is_underscore_true in Ec. by destruct (Hend t c E). }
  rewrite E4.
  assert (E5 : upper u = u).
  { unfold upper. clear -Hchars. induction Hchars as [|c u Hc _ IH]; [done|].
    cbn. by rewrite identifier_upper, IH. }
  rewrite E5. by destruct u.
Qed.

(** X10: [sanitize_title] leaves alone exactly the strings it can
    return.  A string is returned unchanged if and only if it is not empty
    and made of upper-case ASCII letters, digits and underscores, with no
    underscore at either end and no two underscores side by side; hence
    sanitizing twice gives the same as sanitizing once. *)
Theorem sanitize_title_fixed_points :
  (forall u, sanitize_title u = u <-> clean_identifier u) /\
  (forall v, sanitize_title (sanitize_title v) = sanitize_title v).
Proof.
  split.
  - intros u. split; [|apply sanitize_title_fixed].
    intros E. rewrite <- E. apply sanitize_title_clean.
  - intros v. apply sanitize_title_fixed, sanitize_title_clean.
Qed.

Lemma sanitize_title_fixed_points_witness :
  sanitize_title "MEMORY_LEAK_2" = ("MEMORY_LEAK_2" : str).
Proof.
  apply (proj1 sanitize_title_fixed_points). unfold clean_identifier.
  split; [done|]. split.
  { repeat (constructor; [vm_compute; auto|]). constructor. }
  split; [|split].
  - intros a b E.
    do 13 (destruct a as [|? a]; [discriminate E|injection E as _ E]).
    by destruct a.
  - intros t E. discriminate E.
  - intros t E.
    do 13 (destruct t as [|? t]; [discriminate E|injection E as _ E]).
    by destruct t.
Defined.


(** ** The letters and digits of a title *)

(** X11: [sanitize_title] keeps every ASCII letter and digit of the
    title, in order and in upper case, and adds none: what it changes are
    the characters between them.  A title with no ASCII letter or digit,
    the empty title among them, becomes [UNTITLED]. *)
Theorem sanitize_title_keeps_alnums (value : str) :
  (alnums value = [] -> sanitize_title value = ("UNTITLED" : str)) /\
  (alnums value <> [] -> alnums (sanitize_title value) = upper (alnums value)).
Proof.
  unfold sanitize_title.
  set (s2 := sub_runs is_underscore _ false _).
  assert (E2 : alnums s2 = alnums value).
  { unfold s2. change (String.list_ascii_of_string "_") with [UNDERSCORE].
    rewrite (alnums_sub_runs is_underscore underscore_not_alnum UNDERSCORE) by done.
    rewrite (alnums_sub_runs (fun c => negb (is_alnum c))
               (fun c H => proj1 (negb_true_iff _) H) UNDERSCORE) by done.
    apply alnums_strip_by, space_not_alnum. }
  assert (E3 : alnums (upper (strip_underscores s2)) = upper (alnums value)).
  { rewrite alnums_upper. unfold strip_underscores.
    by rewrite (alnums_strip_by is_underscore underscore_not_alnum), E2. }
  split.
  - intros E. rewrite E in E2.
    pose proof (no_alnums_underscores s2 (sanitized_chars value) E2) as Hall.
    unfold strip_underscores. by rewrite (strip_by_all is_underscore s2 Hall).
  - intros Hne. destruct (upper (strip_underscores s2)) as [|c u] eqn:Eu; [|done].
    cbn in E3. destruct (alnums value); [done|discriminate E3].
Qed.

Lemma sanitize_title_keeps_alnums_witness :
  sanitize_title " -- " = ("UNTITLED" : str) /\
  alnums (sanitize_title "a-1") = upper (alnums "a-1").
Proof.
  split.
  - apply (proj1 (sanitize_title_keeps_alnums " -- ")). reflexivity.
  - apply (proj2 (sanitize_title_keeps_alnums "a-1")). discriminate.
Defined.


(** ** The keys of the metadata block *)

Lemma dict_set_keys (k v : str) (d : list (str * str)) :
  (dict_set k v d).*1 = if bool_decide (k ∈ d.*1) then d.*1 else d.*1 ++ [k].
Proof.
  induction d as [|[k0 v0] d IH]; [done|]. cbn [dict_set].
  destruct (decide (k = k0)) as [<-|Hk].
  - rewrite (bool_decide_eq_true_2 (k = k)) by done. cbn.
    rewrite bool_decide_eq_true_2; [done|by left].
  - rewrite (bool_decide_eq_false_2 (k = k0)) by done. cbn. rewrite IH.
    destruct (decide (k ∈ d.*1)) as [Hin|Hin].
    + rewrite !bool_decide_eq_true_2; [done|by right|done].
    + rewrite !bool_decide_eq_false_2; [done| |done].
      intros [E|E]%elem_of_cons; [by apply Hk|done].
Qed.

Lemma dict_set_NoDup (k v : str) (d : list (str * str)) :
  NoDup d.*1 -> NoDup (dict_set k v d).*1.
Proof.
  intros H. rewrite dict_set_keys. case_bool_decide as Hin; [done|].
  apply NoDup_app. split; [done|]. split; [|apply NoDup_singleton].
  intros x Hx ->%list_elem_of_singleton. done.
Qed.

Lemma dict_set_elem (k v : str) (d : list (str * str)) : (k, v) ∈ dict_set k v d.
Proof.
  induction d as [|[k0 v0] d IH]; cbn [dict_set]; [by left|].
  case_bool_decide; [by left|by right].
Qed.

Lemma dict_set_other (k v k' v' : str) (d : list (str * str)) :
  k' <> k -> (k', v') ∈ d -> (k', v') ∈ dict_set k v d.
Proof.
  intros Hne. induction d as [|[k0 v0] d IH]; [by intros ?%elem_of_nil|].
  cbn [dict_set]. intros [E|Hin]%elem_of_cons.
  - injection E as <- <-. rewrite bool_decide_eq_false_2 by congruence. by left.
  - case_bool_decide; right; [done|by apply IH].
Qed.

Lemma dict_set_length (k v : str) (d : list (str * str)) :
  (length d <= length (dict_set k v d))%nat.
Proof.
  rewrite <- (length_fmap fst (dict_set k v d)), dict_set_keys, <- (length_fmap fst d).
  case_bool_decide; [done|]. rewrite length_app. lia.
Qed.

Lemma dict_set_prefix (k v : str) (d : list (str * str)) :
  take (length d) (dict_set k v d).*1 = d.*1.
Proof.
  rewrite dict_set_keys, <- (length_fmap fst d).
  case_bool_decide; [apply firstn_all|by rewrite take_app_length].
Qed.

Lemma dict_update_NoDup (extra d : list (str * str)) :
  NoDup d.*1 -> NoDup (dict_update d extra).*1.
Proof.
  revert d. induction extra as [|[k v] extra IH]; intros d H; [done|].
  change (dict_update d ((k, v) :: extra)) with (dict_update (dict_set k v d) extra).
  apply IH. by apply dict_set_NoDup.
Qed.

Lemma dict_update_length (extra d : list (str * str)) :
  (length d <= length (dict_update d extra))%nat.
Proof.
  revert d. induction extra as [|[k v] extra IH]; intros d; [done|].
  change (dict_update d ((k, v) :: extra)) with (dict_update (dict_set k v d) extra).
  etransitivity; [apply (dict_set_length k v)|apply IH].
Qed.

Lemma dict_update_prefix (extra d : list (str * str)) :
  take (length d) (dict_update d extra).*1 = d.*1.
Proof.
  revert d. induction extra as [|[k v] extra IH]; intros d.
  { cbn. rewrite <- (length_fmap fst d). apply firstn_all. }
  change (dict_update d ((k, v) :: extra)) with (dict_update (dict_set k v d) extra).
  rewrite <- (dict_set_prefix k v d), <- (IH (dict_set k v d)), take_take.
  f_equal. pose proof (dict_set_length k v d). lia.
Qed.

Lemma dict_update_keys (extra d : list (str * str)) (k : str) :
  k ∈ (dict_update d extra).*1 <-> k ∈ d.*1 \/ k ∈ extra.*1.
Proof.
  revert d. induction extra as [|[k0 v0] extra IH]; intros d.
  { cbn. split; [by left|]. by intros [?|?%elem_of_nil]. }
  change (dict_update d ((k0, v0) :: extra)) with (dict_update (dict_set k0 v0 d) extra).
  rewrite IH, dict_set_keys. cbn [fmap list_fmap fst]. rewrite elem_of_cons.
  case_bool_decide as Hin.
  - split; [tauto|]. intros [?|[->|?]]; auto.
  - rewrite elem_of_app, list_elem_of_singleton. tauto.
Qed.

Lemma dict_update_keeps (extra d : list (str * str)) (k v : str) :
  (k, v) ∈ d -> k ∉ extra.*1 -> (k, v) ∈ dict_update d extra.
Proof.
  revert d. induction extra as [|[k0 v0] extra IH]; intros d Hin Hk; [done|].
  cbn in Hk. apply not_elem_of_cons in Hk as [Hne Hk].
  change (dict_update d ((k0, v0) :: extra)) with (dict_update (dict_set k0 v0 d) extra).
  apply IH; [|done]. by apply dict_set_other.
Qed.

Lemma dict_update_extras (extra d : list (str * str)) (kv : str * str) :
  NoDup extra.*1 -> kv ∈ extra -> kv ∈ dict_update d extra.
Proof.
  revert d. induction extra as [|[k0 v0] extra IH]; intros d Hnd Hin;
    [by apply elem_of_nil in Hin|].
  cbn in Hnd. apply NoDup_cons in Hnd as [Hk Hnd].
  change (dict_update d ((k0, v0) :: extra)) with (dict_update (dict_set k0 v0 d) extra).
  apply elem_of_cons in Hin as [->|Hin].
  - apply dict_update_keeps; [apply dict_set_elem|done].
  - by apply IH.
Qed.

(** X12: the metadata of an issue never has two fields with the same
    key.  Its first eight keys are [title], [group], [category],
    [priority], [status], [source], [issue_index] and [sequence], in this
    order, whatever the caller-supplied fields are; the other keys are
    those of the caller-supplied fields.  A field whose key no
    caller-supplied field has keeps its value; and every caller-supplied
    field, their keys being distinct, is in the metadata with its value,
    also when its key is one of the eight, whose value it then
    replaces in place. *)
Theorem frontmatter_fields_keys (issue : Issue) :
  NoDup (frontmatter_fields issue).*1 /\
  take 8 (frontmatter_fields issue).*1
    = ["title" : str; "group" : str; "category" : str; "priority" : str;
       "status" : str; "source" : str; "issue_index" : str; "sequence" : str] /\
  (forall k, k ∈ (frontmatter_fields issue).*1 <->
             k ∈ (frontmatter_fields (without_extras issue)).*1 \/
             k ∈ (extra_frontmatter issue).*1) /\
  (forall k v, (k, v) ∈ frontmatter_fields (without_extras issue) ->
               k ∉ (extra_frontmatter issue).*1 ->
               (k, v) ∈ frontmatter_fields issue) /\
  (NoDup (extra_frontmatter issue).*1 ->
   forall kv, kv ∈ extra_frontmatter issue -> kv ∈ frontmatter_fields issue).
Proof.
  unfold frontmatter_fields. cbn [without_extras extra_frontmatter title group
    category priority status source_path source_issue_index sequence].
  set (base := [_; _; _; _; _; _; _; _]).
  change (dict_update base []) with base.
  split; [|split; [|split; [|split]]].
  - apply dict_update_NoDup. unfold base. cbn.
    apply (bool_decide_unpack _). vm_compute. exact I.
  - exact (dict_update_prefix (extra_frontmatter issue) base).
  - intros k. apply dict_update_keys.
  - intros k v. apply dict_update_keeps.
  - intros Hnd kv. by apply dict_update_extras.
Qed.

Lemma frontmatter_fields_keys_witness :
  ("title" : str, "B" : str) ∈ frontmatter_fields retitled_issue.
Proof.
  apply (proj2 (proj2 (proj2 (proj2 (frontmatter_fields_keys retitled_issue))))).
  - apply (bool_decide_unpack _). vm_compute. exact I.
  - by left.
Defined.

(** ** Spans without a rule *)

Lemma rule_here_prefix (s : str) (n : nat) :
  TRAILING_RULE_PATTERN.rule_here s = Some n -> exists r, s = ("---" : str) ++ r.
Proof.
  unfold TRAILING_RULE_PATTERN.rule_here.
  destruct (strip_prefix "---" s) as [r|] eqn:E; [|done].
  apply strip_prefix_Some in E. eauto.
Qed.

Lemma newlines_then_rule_infix (j : nat) (s : str) (n : nat) :
  TRAILING_RULE_PATTERN.newlines_then_rule j s = Some n ->
  exists a r, s = a ++ ("---" : str) ++ r.
Proof.
  induction j as [|j IH]; cbn [TRAILING_RULE_PATTERN.newlines_then_rule];
    destruct (TRAILING_RULE_PATTERN.rule_here (drop _ s)) as [m|] eqn:E;
    try done; try (intros _; apply rule_here_prefix in E as [r E];
                   eexists (take _ s), r; by rewrite <- E, take_drop).
Qed.

Lemma sub_from_no_rule (s : str) :
  (forall a b, s <> a ++ ("---" : str) ++ b) ->
  TRAILING_RULE_PATTERN.sub_from 0 s = s.
Proof.
  induction s as [|c s IH]; intros H; [done|].
  cbn [TRAILING_RULE_PATTERN.sub_from].
  destruct (TRAILING_RULE_PATTERN.match_here (c :: s)) as [[|k]|] eqn:E.
  - f_equal. apply IH. intros a b ->. by apply (H (c :: a) b).
  - apply newlines_then_rule_infix in E as (a & r & E). by destruct (H a r).
  - f_equal. apply IH. intros a b ->. by apply (H (c :: a) b).
Qed.

(** X13: the span that [extract_issues] keeps never begins or ends with
    white space, and a raw span in which no three hyphens stand side by
    side is only trimmed: the substitution of the rule pattern changes
    nothing in it. *)
Theorem trim_section_without_rule (raw : str) :
  strip (trim_section raw) = trim_section raw /\
  ((forall a b, raw <> a ++ ("---" : str) ++ b) -> trim_section raw = strip raw).
Proof.
  unfold trim_section. split; [apply strip_by_idemp|]. intros H.
  unfold TRAILING_RULE_PATTERN.sub_empty. rewrite sub_from_no_rule.
  - apply strip_by_idemp.
  - intros a b E. destruct (strip_by_infix is_space raw) as (pre & post & E').
    unfold strip in E. rewrite E in E'. apply (H (pre ++ a) (b ++ post)).
    by rewrite E', <- !app_assoc.
Qed.

Lemma trim_section_without_rule_witness :
  trim_section ((" a - b " : str) ++ [LF]) = strip ((" a - b " : str) ++ [LF]).
Proof.
  apply (proj2 (trim_section_without_rule _)). intros a b E.
  do 8 (destruct a as [|? a]; [discriminate E|injection E as _ E]).
  by destruct a.
Defined.

(** ** Escaped values *)

Lemma escape_quotes_inj (v1 v2 : str) :
  escape_quotes v1 = escape_quotes v2 -> v1 = v2.
Proof.
  intros E. apply (f_equal unescape_quotes) in E. by rewrite !unescape_escape in E.
Qed.

Lemma escape_quotes_quote (v a b : str) :
  escape_quotes v = a ++ DQUOTE :: b -> exists a', a = a' ++ [BACKSLASH].
Proof.
  revert a. induction v as [|c v IH]; intros a; cbn [escape_quotes].
  { by destruct a. }
  case_bool_decide as Hc.
  - destruct a as [|x [|y a]]; cbn.
    + intros E. assert (E' : BACKSLASH = DQUOTE) by congruence. discriminate E'.
    + intros [= <- _]. by exists [].
    + intros [= <- <- E]. destruct (IH _ E) as [a' ->]. by exists (BACKSLASH :: DQUOTE :: a').
  - destruct a as [|x a]; cbn.
    + intros [= -> _]. done.
    + intros [= <- E]. destruct (IH _ E) as [a' ->]. by exists (c :: a').
Qed.

Lemma escape_quotes_plain (v : str) : DQUOTE ∉ v -> escape_quotes v = v.
Proof.
  induction v as [|c v IH]; [done|]. intros [Hc Hv]%not_elem_of_cons.
  cbn. rewrite bool_decide_eq_false_2 by congruence. by rewrite IH.
Qed.

(** X14: the escaping of a value loses nothing and leaves no bare quote.
    Different values have different escaped forms, hence different lines
    under the same key; in an escaped value every double quote comes
    right after a backslash; and a value without a double quote is
    written as it is, backslashes included, which are never escaped. *)
Theorem escape_quotes_faithful :
  (forall v1 v2, escape_quotes v1 = escape_quotes v2 -> v1 = v2) /\
  (forall k v1 v2, frontmatter_line (k, v1) = frontmatter_line (k, v2) -> v1 = v2) /\
  (forall v a b, escape_quotes v = a ++ DQUOTE :: b -> exists a', a = a' ++ [BACKSLASH]) /\
  (forall v, DQUOTE ∉ v -> escape_quotes v = v).
Proof.
  split; [exact escape_quotes_inj|]. split; [|split].
  - intros k v1 v2. unfold frontmatter_line. cbn [fst snd].
    intros E. do 3 apply app_inv_head in E. apply app_inv_tail in E.
    by apply escape_quotes_inj.
  - exact escape_quotes_quote.
  - exact escape_quotes_plain.
Qed.

Lemma escape_quotes_faithful_witness :
  escape_quotes [BACKSLASH; "n"%char] = [BACKSLASH; "n"%char].
Proof.
  apply (proj2 (proj2 (proj2 escape_quotes_faithful))).
  apply (bool_decide_unpack _). vm_compute. exact I.
Defined.


(** ** The order and the log of extraction *)






(** ** The body in the document *)

Lemma rstrip_snoc_space (s : str) c :
  is_space c = true -> rstrip (s ++ [c]) = rstrip s.
Proof.
  intros Hc. unfold rstrip, rstrip_by. rewrite rev_app_distr. cbn. by rewrite Hc.
Qed.

Lemma rstrip_snoc_other (s : str) c :
  is_space c = false -> rstrip (s ++ [c]) = s ++ [c].
Proof.
  intros Hc. apply rstrip_by_id. intros t c' E.
  apply app_inj_tail in E as [_ <-]. exact Hc.
Qed.

Lemma stripped_last (x : str) t c : strip x = x -> x = t ++ [c] -> is_space c = false.
Proof. intros Hx E. rewrite <- Hx in E. by apply (strip_by_last is_space) in E. Qed.

Lemma stripped_head (x : str) c t : strip x = x -> x = c :: t -> is_space c = false.
Proof. intros Hx E. rewrite <- Hx in E. by apply (strip_by_head is_space) in E. Qed.

Lemma make_body_rstrip (title section : str) :
  strip title = title -> strip section = section ->
  rstrip (make_body title section) ++ [LF] =
    if bool_decide (make_body title section = ("## " : str) ++ [LF])
    then ("##" : str) ++ [LF] else make_body title section.
Proof.
  intros Ht Hs. rewrite make_body_eq.
  assert (Hbare : forall (y : str) c t,
             title = c :: t -> ("## " : str) ++ title ++ [LF] ++ y <> ("## " : str) ++ [LF]).
  { intros y c t -> E. apply app_inv_head in E. injection E as -> _.
    pose proof (stripped_head _ _ _ Ht eq_refl) as H. by vm_compute in H. }
  destruct section as [|d0 sec] eqn:Es.
  - rewrite app_nil_r. destruct title as [|c t] eqn:Et.
    + rewrite bool_decide_eq_true_2 by done. reflexivity.
    + rewrite bool_decide_eq_false_2.
      2:{ rewrite <- (app_nil_r [LF]). by eapply (Hbare []). }
      rewrite <- Et in *.
      destruct (exists_last (l := title) ltac:(by rewrite Et)) as (t' & c' & E).
      rewrite app_assoc, rstrip_snoc_space by done.
      rewrite E, app_assoc, rstrip_snoc_other; [done|].
      exact (stripped_last title t' c' Ht E).
  - rewrite <- Es in *.
    destruct (exists_last (l := section) ltac:(by rewrite Es)) as (t' & c' & E).
    rewrite bool_decide_eq_false_2.
    2:{ destruct title as [|c t] eqn:Et; [|by eapply Hbare].
        intros E'. apply app_inv_head in E'. rewrite Es in E'. discriminate E'. }
    rewrite !app_assoc, rstrip_snoc_space by done.
    rewrite E, !app_assoc, rstrip_snoc_other; [done|].
    exact (stripped_last section t' c' Hs E).
Qed.

(** X16: the document of an extracted issue ends with the body of the
    issue as it is: the body already ends with one newline after a
    character that is not white space, so that trimming it and adding a
    newline gives it back.  The one exception is the issue with an empty
    title and an empty span, whose body, two hashes, a blank and a
    newline, is written without the blank. *)
Theorem extract_issues_body_written sp text w issues :
  (extract_issues sp text w).1 = Return issues ->
  Forall (fun i =>
            forall n,
              document (set_sequence i n) =
                join [LF] (frontmatter_lines (set_sequence i n)) ++ [LF; LF]
                  ++ (if bool_decide (body i = ("## " : str) ++ [LF])
                      then ("##" : str) ++ [LF] else body i))
         issues.
Proof.
  intros E.
  apply extract_issues_Return in E as [[_ ->]|(_ & g & c & _ & _ & ->)];
    [constructor|].
  apply Forall_forall. intros i Hi.
  apply list_elem_of_In, in_map_iff in Hi as ([m raw] & <- & _). intros n.
  unfold document. cbn [body set_sequence built_issue fst snd].
  do 2 f_equal. apply make_body_rstrip; [apply strip_by_idemp|].
  unfold trim_section. apply strip_by_idemp.
Qed.

Lemma extract_issues_body_written_witness :
  exists issues,
    (extract_issues (path_div SOURCE_DIR "INFRA_MONITORING.md")
       one_line_document empty_world).1 = Return issues /\
    Forall (fun i =>
              forall n,
                document (set_sequence i n) =
                  join [LF] (frontmatter_lines (set_sequence i n)) ++ [LF; LF]
                    ++ (if bool_decide (body i = ("## " : str) ++ [LF])
                        then ("##" : str) ++ [LF] else body i))
           issues.
Proof.
  eexists. split; [vm_compute; reflexivity|].
  apply (extract_issues_body_written (path_div SOURCE_DIR "INFRA_MONITORING.md")
           one_line_document empty_world).
  vm_compute. reflexivity.
Defined.
